(** * MatrixSlow operator layer: matrixslow/ops/ops.py

    A shallow embedding of the operator nodes ([Add], [MatMul], [SoftMax],
    [Step], [logistic]) and of the helper [fill_diagonal], followed by the
    properties of their [compute] and [get_jacobi] methods.

    Conventions of the embedding.
    - A numpy float is an exact real number ([R]); rounding, overflow and
      NaN are outside the model.
    - An [np.matrix] is its shape together with its row-major buffer, which
      is numpy's default (C-contiguous) layout.
    - A Python exception is a value of [exn]; a call that may raise returns
      a [result].
    - Nodes and matrices are Python objects with identity: the interpreter
      state holds a table of nodes and a heap of matrix objects, and a node's
      [value] attribute is a reference into the heap. *)

From Stdlib Require Import String.
From Stdlib Require Import List Arith Bool Lia Reals Lra Permutation.
Import ListNotations.

(** ** Exceptions and results *)

Inductive exn : Type :=
| AssertionError
| ZeroDivisionError
| ValueError
| IndexError
| TypeError
| AttributeError
| NotImplementedError (msg : string).

Inductive result (A : Type) : Type :=
| Ok (a : A)
| Raise (e : exn).

Arguments Ok {A} a.
Arguments Raise {A} e.

Definition rbind {A B : Type} (m : result A) (k : A -> result B) : result B :=
  match m with
  | Ok a => k a
  | Raise e => Raise e
  end.

Declare Scope py_scope.
Delimit Scope py_scope with py.
Notation "x <- m ;; k" := (rbind m (fun x => k))
  (at level 61, m at next level, right associativity) : py_scope.
Open Scope py_scope.

(** ** Two-dimensional arrays *)

Record ndarray (A : Type) : Type := NDArray {
  shape : nat * nat;
  data : list A
}.

Arguments NDArray {A} shape data.
Arguments shape {A} n.
Arguments data {A} n.

Definition nrows {A} (M : ndarray A) : nat := fst (shape M).
Definition ncols {A} (M : ndarray A) : nat := snd (shape M).

(** The buffer holds exactly one entry per position. *)
Definition wf {A} (M : ndarray A) : Prop :=
  length (data M) = nrows M * ncols M.

(** [M[i, j]] *)
Definition item {A} (d : A) (M : ndarray A) (i j : nat) : A :=
  nth (i * ncols M + j) (data M) d.

(** The row-major buffer of the array whose entry at [(i, j)] is [f i j]. *)
Definition grid {A} (r c : nat) (f : nat -> nat -> A) : list A :=
  concat (map (fun i => map (f i) (seq 0 c)) (seq 0 r)).

Definition tabulate {A} (r c : nat) (f : nat -> nat -> A) : ndarray A :=
  NDArray (r, c) (grid r c f).

Definition matrix : Type := ndarray R.

(** [M[i, j]] for a matrix of floats. *)
Definition at_ (M : matrix) (i j : nat) : R := item 0%R M i j.

(** [np.mat(np.zeros((r, c)))] *)
Definition zeros (r c : nat) : matrix := tabulate r c (fun _ _ => 0%R).

(** [np.mat(np.eye(d))] *)
Definition eye (d : nat) : matrix :=
  tabulate d d (fun i j => if i =? j then 1%R else 0%R).

(** [M.T], for any element type. *)
Definition T_ {A} (d : A) (M : ndarray A) : ndarray A :=
  tabulate (ncols M) (nrows M) (fun i j => item d M j i).

(** [M.ravel()]: the entries as a flat array, in buffer (row-major) order. *)
Definition ravel {A} (d : A) (M : ndarray A) : list A :=
  grid (nrows M) (ncols M) (item d M).

Definition transpose (M : matrix) : matrix := T_ 0%R M.

(** [np.diag(v)] for a one-dimensional [v] *)
Definition diag (v : list R) : matrix :=
  tabulate (length v) (length v)
           (fun i j => if i =? j then nth i v 0%R else 0%R).

(** [M.A1]: the matrix flattened to one dimension, as [ravel] does. *)
Definition A1 (M : matrix) : list R := ravel 0%R M.

(** The sum of [f 0 .. f (n-1)]. *)
Fixpoint rsum (n : nat) (f : nat -> R) : R :=
  match n with
  | O => 0%R
  | S n' => (rsum n' f + f n')%R
  end.

(** The product of two conformant matrices. *)
Definition dot (A B : matrix) : matrix :=
  tabulate (nrows A) (ncols B)
           (fun i j => rsum (ncols A) (fun l => (at_ A i l * at_ B l j)%R)).

(** [A * B] on [np.matrix]: the matrix product. *)
Definition matmul (A B : matrix) : result matrix :=
  if ncols A =? nrows B then Ok (dot A B) else Raise ValueError.

(** Broadcasting of one axis: an axis of length 1 is repeated. *)
Definition bidx (len i : nat) : nat := if len =? 1 then 0 else i.

Definition broadcastable (len target : nat) : bool :=
  (len =? target) || (len =? 1).

(** [M += P], in place on [M]'s buffer; [P] is broadcast to [M]'s shape. *)
Definition iadd (M P : matrix) : result matrix :=
  if broadcastable (nrows P) (nrows M) && broadcastable (ncols P) (ncols M)
  then Ok (tabulate (nrows M) (ncols M)
             (fun i j =>
                (at_ M i j + at_ P (bidx (nrows P) i) (bidx (ncols P) j))%R))
  else Raise ValueError.

(** Elementwise application of a scalar function. *)
Definition map_matrix (f : R -> R) (M : matrix) : matrix :=
  NDArray (shape M) (map f (data M)).

(** [M[r0:r1, c0:c1] = F]: slice bounds are clamped to the shape, and [F] is
    broadcast to the shape of the selected region. *)
Definition set_block (M : matrix) (r0 r1 c0 c1 : nat) (F : matrix)
  : result matrix :=
  let a0 := Nat.min r0 (nrows M) in
  let a1 := Nat.min r1 (nrows M) in
  let b0 := Nat.min c0 (ncols M) in
  let b1 := Nat.min c1 (ncols M) in
  if broadcastable (nrows F) (a1 - a0) && broadcastable (ncols F) (b1 - b0)
  then Ok (tabulate (nrows M) (ncols M)
             (fun p q =>
                if (a0 <=? p) && (p <? a1) && (b0 <=? q) && (q <? b1)
                then at_ F (bidx (nrows F) (p - a0)) (bidx (ncols F) (q - b0))
                else at_ M p q))
  else Raise ValueError.

(** ** [fill_diagonal]

    [shape[0] / shape[0]] is Python's true division of two ints: it raises
    [ZeroDivisionError] on a zero divisor and otherwise gives the correctly
    rounded binary64 quotient.  The embedding compares the exact fractions
    and takes the exact floor for [int(.)]: equal fractions always give
    equal quotients, and unequal fractions give unequal quotients as long
    as the dimensions are small (below 2^25, see [small_dimension]); for
    larger dimensions two unequal fractions can round to one quotient, and
    statements about rejected ratios carry that bound.  The target is
    mutated in place and returned; the embedding returns the mutated
    value. *)
Definition fill_diagonal (to_be_filled filler : matrix) : result matrix :=
  if (nrows filler =? 0) || (ncols filler =? 0) then Raise ZeroDivisionError
  else if negb (nrows to_be_filled * ncols filler
                =? ncols to_be_filled * nrows filler)
  then Raise AssertionError
  else
    let n := nrows to_be_filled / nrows filler in
    let r := nrows filler in
    let c := ncols filler in
    fold_left
      (fun acc i =>
         M <- acc ;;
         set_block M (i * r) ((i + 1) * r) (i * c) ((i + 1) * c) filler)
      (seq 0 n) (Ok to_be_filled).

(** ** Index arrays and fancy indexing *)

(** [np.arange(d)] *)
Definition arange (d : nat) : list nat := seq 0 d.

(** [v.reshape((r, c))] of a one-dimensional array. *)
Definition reshape {A} (v : list A) (sh : nat * nat) : result (ndarray A) :=
  if length v =? fst sh * snd sh then Ok (NDArray sh v) else Raise ValueError.

(** [M[idx, :]] *)
Definition take_rows (M : matrix) (idx : list nat) : result matrix :=
  if forallb (fun k => k <? nrows M) idx
  then Ok (tabulate (length idx) (ncols M)
             (fun p q => at_ M (nth p idx 0) q))
  else Raise IndexError.

(** [M[:, idx]] *)
Definition take_cols (M : matrix) (idx : list nat) : result matrix :=
  if forallb (fun k => k <? ncols M) idx
  then Ok (tabulate (nrows M) (length idx)
             (fun p q => at_ M p (nth q idx 0)))
  else Raise IndexError.

(** ** Python objects passed as a dimension

    [np.zeros] wants integers; a bound method is not one. *)
Inductive pyobj : Type :=
| PyInt (n : nat)
| PyMethod (self : nat) (name : string).

Definition as_index (o : pyobj) : result nat :=
  match o with
  | PyInt n => Ok n
  | PyMethod _ _ => Raise TypeError
  end.

(** [np.mat(np.zeros((a, b)))] *)
Definition np_zeros (sh : pyobj * pyobj) : result matrix :=
  r <- as_index (fst sh) ;;
  c <- as_index (snd sh) ;;
  Ok (zeros r c).

(** ** Nodes and the interpreter state *)

Definition node_ref : Type := nat.
Definition loc : Type := nat.

(** Modelled from the spec: the class [Node] of [matrixslow/core], which is
    not part of the sources at hand.  A node has an ordered sequence
    [parents] and a settable [value] slot ([None] until it is computed);
    [shape()] is the shape of the current value and [dimension()] is
    rows times columns. *)
Record Node : Type := MkNode {
  parents : list node_ref;
  value : option loc
}.

Record state : Type := MkState {
  nodes : list Node;
  heap : list matrix
}.

(** The node object behind a reference.  A reference always denotes an
    object: the two lookups below fail only in a state that is not well
    formed. *)
Definition get_node (st : state) (n : node_ref) : result Node :=
  match nth_error (nodes st) n with
  | Some nd => Ok nd
  | None => Raise AttributeError
  end.

(** The matrix object behind a reference. *)
Definition read (st : state) (l : loc) : result matrix :=
  match nth_error (heap st) l with
  | Some M => Ok M
  | None => Raise AttributeError
  end.

(** [l] with position [k] replaced by [x]. *)
Fixpoint update {A} (l : list A) (k : nat) (x : A) : list A :=
  match l, k with
  | [], _ => []
  | _ :: t, O => x :: t
  | h :: t, S k' => h :: update t k' x
  end.

(** In-place mutation of the matrix object at [l]. *)
Definition write (st : state) (l : loc) (M : matrix) : state :=
  MkState (nodes st) (update (heap st) l M).

(** A new matrix object. *)
Definition alloc (st : state) (M : matrix) : loc * state :=
  (length (heap st), MkState (nodes st) (heap st ++ [M])).

(** [node.value = l] *)
Definition set_value (st : state) (n : node_ref) (l : loc) : result state :=
  nd <- get_node st n ;;
  Ok (MkState (update (nodes st) n (MkNode (parents nd) (Some l))) (heap st)).

(** [node.value] where a matrix is required; [e] is what the operation
    applied to [None] raises. *)
Definition value_ref (st : state) (n : node_ref) (e : exn) : result loc :=
  nd <- get_node st n ;;
  match value nd with
  | Some l => Ok l
  | None => Raise e
  end.

Definition value_of (st : state) (n : node_ref) (e : exn) : result matrix :=
  l <- value_ref st n e ;;
  read st l.

(** [node.shape()] *)
Definition Node_shape (st : state) (n : node_ref) : result (nat * nat) :=
  M <- value_of st n AttributeError ;;
  Ok (shape M).

(** [node.dimension()] *)
Definition Node_dimension (st : state) (n : node_ref) : result nat :=
  M <- value_of st n AttributeError ;;
  Ok (nrows M * ncols M).

(** [self.parents[i]] *)
Definition parent_at (st : state) (self : node_ref) (i : nat)
  : result node_ref :=
  nd <- get_node st self ;;
  match nth_error (parents nd) i with
  | Some p => Ok p
  | None => Raise IndexError
  end.

(** A [for] loop whose body may raise. *)
Fixpoint for_each {A S} (xs : list A) (body : S -> A -> result S) (s : S)
  : result S :=
  match xs with
  | [] => Ok s
  | x :: xs' => s' <- body s x ;; for_each xs' body s'
  end.

(** ** The operators *)

Module Add.

(** [self.value += parent.value] *)
Definition accumulate (self : node_ref) (st : state) (parent : node_ref)
  : result state :=
  ls <- value_ref st self TypeError ;;
  M <- read st ls ;;
  P <- value_of st parent TypeError ;;
  M' <- iadd M P ;;
  Ok (write st ls M').

Definition compute (self : node_ref) (st : state) : result state :=
  p0 <- parent_at st self 0 ;;
  sh <- Node_shape st p0 ;;
  z <- np_zeros (PyInt (fst sh), PyInt (snd sh)) ;;
  let (l, st1) := alloc st z in
  st2 <- set_value st1 self l ;;
  nd <- get_node st2 self ;;
  for_each (parents nd) (accumulate self) st2.

Definition get_jacobi (self parent : node_ref) (st : state)
  : result matrix :=
  d <- Node_dimension st self ;;
  Ok (eye d).

End Add.

Module MatMul.

Definition compute (self : node_ref) (st : state) : result state :=
  nd <- get_node st self ;;
  if negb (length (parents nd) =? 2) then Raise AssertionError else
  p0 <- parent_at st self 0 ;;
  s0 <- Node_shape st p0 ;;
  p1 <- parent_at st self 1 ;;
  s1 <- Node_shape st p1 ;;
  if negb (snd s0 =? fst s1) then Raise AssertionError else
  A <- value_of st p0 TypeError ;;
  B <- value_of st p1 TypeError ;;
  C <- matmul A B ;;
  let (l, st1) := alloc st C in
  set_value st1 self l.

(** [np.arange(d).reshape(sh[::-1]).T.ravel()] *)
Definition sort_index (d : nat) (sh : nat * nat) : result (list nat) :=
  g <- reshape (arange d) (snd sh, fst sh) ;;
  Ok (ravel 0 (T_ 0 g)).

Definition get_jacobi (self parent : node_ref) (st : state)
  : result matrix :=
  ds <- Node_dimension st self ;;
  dp <- Node_dimension st parent ;;
  zeros <- np_zeros (PyInt ds, PyInt dp) ;;
  p0 <- parent_at st self 0 ;;
  if parent =? p0 then
    p1 <- parent_at st self 1 ;;
    B <- value_of st p1 AttributeError ;;
    fill_diagonal zeros (transpose B)
  else
    A <- value_of st p0 AttributeError ;;
    jacobi <- fill_diagonal zeros A ;;
    ss <- Node_shape st self ;;
    row_sort <- sort_index ds ss ;;
    ps <- Node_shape st parent ;;
    col_sort <- sort_index dp ps ;;
    j1 <- take_rows jacobi row_sort ;;
    take_cols j1 col_sort.

End MatMul.

Module SoftMax.

(** [a[a > 1e2] = 1e2] on one entry. *)
Definition clip (x : R) : R := if Rgt_dec x 100 then 100%R else x.

(** [np.sum(M)] *)
Definition np_sum (M : matrix) : R := fold_left Rplus (data M) 0%R.

(** The static method [softmax(a)]: [a] is the matrix object passed by the
    caller, and the clipping assignment writes into that object.  The
    exponential and the quotient are those of the real numbers: they follow
    the binary64 computation up to rounding as long as the exponentials do
    not all underflow to zero (see [no_total_underflow]). *)
Definition softmax (a : loc) (st : state) : result (matrix * state) :=
  M <- read st a ;;
  let st1 := write st a (map_matrix clip M) in
  M1 <- read st1 a ;;
  let ep := map_matrix exp M1 in
  Ok (map_matrix (fun x => (x / np_sum ep)%R) ep, st1).

Definition compute (self : node_ref) (st : state) : result state :=
  p0 <- parent_at st self 0 ;;
  a <- value_ref st p0 TypeError ;;
  r <- softmax a st ;;
  let (l, st2) := alloc (snd r) (fst r) in
  set_value st2 self l.

Definition get_jacobi (self parent : node_ref) (st : state)
  : result matrix :=
  Raise (NotImplementedError "Don't use SoftMax's get_jacobi").

End SoftMax.

Module Step.

Definition compute (self : node_ref) (st : state) : result state :=
  p0 <- parent_at st self 0 ;;
  X <- value_of st p0 TypeError ;;
  let (l, st1) :=
    alloc st (map_matrix (fun x => if Rge_dec x 0 then 1%R else 0%R) X) in
  set_value st1 self l.

(** [self.dimension] is written without the call: it is the bound method
    itself, and that is what [np.zeros] receives. *)
Definition get_jacobi (self parent : node_ref) (st : state)
  : result matrix :=
  np_zeros (PyMethod self "dimension", PyMethod self "dimension").

End Step.

Module logistic.

(** [1.0 / (1.0 + np.power(np.e, np.where(-x > 1e2, 1e2, -x)))] on one
    entry, over the real numbers.  The binary64 value follows it up to
    rounding; in particular it can be rounded to exactly 1 (from about
    x = 37 upwards), so only bounds that include 1 carry over. *)
Definition sigma (x : R) : R :=
  (1 / (1 + exp (if Rgt_dec (- x) 100 then 100 else - x)))%R.

Definition compute (self : node_ref) (st : state) : result state :=
  p0 <- parent_at st self 0 ;;
  X <- value_of st p0 TypeError ;;
  let (l, st1) := alloc st (map_matrix sigma X) in
  set_value st1 self l.

(** [np.multiply(M, 1 - M)] *)
Definition derivative (M : matrix) : matrix :=
  tabulate (nrows M) (ncols M)
           (fun i j => (at_ M i j * (1 - at_ M i j))%R).

Definition get_jacobi (self parent : node_ref) (st : state)
  : result matrix :=
  V <- value_of st self TypeError ;;
  Ok (diag (A1 (derivative V))).

End logistic.

(** ** Vocabulary of the statements *)

(** A dimension below 2^25.  With the four dimensions of a target and a
    filler in this range, the cross products stay below 2^50, two unequal
    fractions R/r and C/c differ by more than a rounding error of their
    binary64 quotients, and the comparison of the quotients in
    [fill_diagonal]'s assertion is the comparison of the fractions. *)
Definition small_dimension (n : nat) : Prop := (Z.of_nat n < 2 ^ 25)%Z.

(** The matrix with the given rows. *)
Definition of_rows (c : nat) (rs : list (list R)) : matrix :=
  NDArray (length rs, c) (concat rs).

(** In a node table [N] and a heap [H], node [p] holds the matrix [M]. *)
Definition holds_in (N : list Node) (H : list matrix)
           (p : node_ref) (M : matrix) : Prop :=
  exists np lp,
    nth_error N p = Some np /\ value np = Some lp
    /\ nth_error H lp = Some M.

(** Node [n] has been computed and its value is the matrix [M]. *)
Definition has_value (st : state) (n : node_ref) (M : matrix) : Prop :=
  exists nd l,
    nth_error (nodes st) n = Some nd /\ value nd = Some l
    /\ nth_error (heap st) l = Some M.

(** The parents of node [n] are [ps], in this order. *)
Definition has_parents (st : state) (n : node_ref) (ps : list node_ref)
  : Prop :=
  exists nd, nth_error (nodes st) n = Some nd /\ parents nd = ps.

(** The entrywise sum of a list of matrices, accumulated from zero in the
    order of the list. *)
Definition sum_at (Ms : list matrix) (i j : nat) : R :=
  fold_left (fun a M => (a + at_ M i j)%R) Ms 0%R.


(** The value [SoftMax.softmax] returns for an input [M]. *)
Definition softmax_of (M : matrix) : matrix :=
  let ep := map_matrix exp (map_matrix SoftMax.clip M) in
  map_matrix (fun x => (x / SoftMax.np_sum ep)%R) ep.

(** The action of a Jacobian on a flattened perturbation: the matrix-vector
    product [J v]. *)
Definition matvec (J : matrix) (v : list R) : list R :=
  map (fun p => rsum (ncols J) (fun q => (at_ J p q * nth q v 0)%R))
      (seq 0 (nrows J)).

(** Column-major vectorization: the columns of [M] one after another. *)
Definition vec_colmajor (M : matrix) : list R := A1 (transpose M).

(** ** Example graphs *)

(** A SoftMax node (node 1) over an input node (node 0) holding [[200]]. *)
Definition softmax_example : state :=
  MkState [MkNode [] (Some 0); MkNode [0] None] [of_rows 1 [[200%R]]].


(** A logistic node (node 1) whose value [[1/2, 1/4]] has been computed. *)
Definition logistic_example : state :=
  MkState [MkNode [] (Some 0); MkNode [0] (Some 1)]
          [of_rows 2 [[0; -1]]%R; of_rows 2 [[1 / 2; 1 / 4]]%R].

(** A logistic node (node 1) whose value is the (2, 2) matrix
    [[1/2, 1/4], [1/8, 1/16]]. *)
Definition logistic_square_value : matrix :=
  of_rows 2 [[1 / 2; 1 / 4]; [1 / 8; 1 / 16]]%R.

Definition logistic_square_example : state :=
  MkState [MkNode [] (Some 0); MkNode [0] (Some 1)]
          [of_rows 2 [[0; -1]; [-2; -3]]%R; logistic_square_value].

(** An Add node (node 2) over two inputs holding [[1, 2]] and [[10, 20]]. *)
Definition add_example : state :=
  MkState [MkNode [] (Some 0); MkNode [] (Some 1); MkNode [0; 1] None]
          [of_rows 2 [[1; 2]]%R; of_rows 2 [[10; 20]]%R].

(** A computed node (node 2) over the input node 0, both holding [[1, 2]];
    node 1 is an unrelated input holding [[7]]. *)
Definition stranger_example : state :=
  MkState [MkNode [] (Some 0); MkNode [] (Some 1); MkNode [0] (Some 2)]
          [of_rows 2 [[1; 2]]%R; of_rows 1 [[7]]%R; of_rows 2 [[1; 2]]%R].

(** A Step node (node 1) over an input holding [[1, -2]]. *)
Definition step_example : state :=
  MkState [MkNode [] (Some 0); MkNode [0] None] [of_rows 2 [[1; -2]]%R].

(** The end-to-end scenario: A = [[1,2],[3,4]] (node 0), B = [[5,6],[7,8]]
    (node 1), and the MatMul node 2 holding their product. *)
Definition scenario_A : matrix := of_rows 2 [[1; 2]; [3; 4]]%R.
Definition scenario_B : matrix := of_rows 2 [[5; 6]; [7; 8]]%R.

Definition matmul_example : state :=
  MkState [MkNode [] (Some 0); MkNode [] (Some 1); MkNode [0; 1] (Some 2)]
          [scenario_A; scenario_B; dot scenario_A scenario_B].

(** A MatMul node (node 2) whose operands have shapes (1, 0) and (0, 1). *)
Definition zero_inner_example : state :=
  MkState [MkNode [] (Some 0); MkNode [] (Some 1); MkNode [0; 1] (Some 2)]
          [NDArray (1, 0) []; NDArray (0, 1) [];
           dot (NDArray (1, 0) []) (NDArray (0, 1) [])].

(** A MatMul node (node 1) both of whose operands are node 0. *)
Definition square_example : state :=
  MkState [MkNode [] (Some 0); MkNode [0; 0] (Some 1)]
          [scenario_A; dot scenario_A scenario_A].

(** The end-to-end scenario with one more input (node 3), unrelated to the
    MatMul node and holding a matrix of B's shape. *)
Definition matmul_stranger_example : state :=
  MkState [MkNode [] (Some 0); MkNode [] (Some 1); MkNode [0; 1] (Some 2);
           MkNode [] (Some 3)]
          [scenario_A; scenario_B; dot scenario_A scenario_B;
           of_rows 2 [[0; 1]; [0; 0]]%R].

(** Two inputs holding a (2, 2) matrix and a (1, 2) matrix, an operator
    node over them in this order (node 2) and one in the opposite order
    (node 3). *)
Definition broadcast_example : state :=
  MkState [MkNode [] (Some 0); MkNode [] (Some 1); MkNode [0; 1] None;
           MkNode [1; 0] None]
          [scenario_A; of_rows 2 [[10; 20]]%R].

(** * Properties *)

(** ** Arrays built entry by entry *)

Section Grid.
Context {A : Type}.
Implicit Types (f g : nat -> nat -> A) (d : A).

Lemma length_rows_from (s r c : nat) f :
  length (concat (map (fun i => map (f i) (seq 0 c)) (seq s r))) = r * c.
Proof.
  revert s; induction r as [|r IH]; intros s; simpl; [reflexivity|].
  rewrite length_app, length_map, length_seq, IH. reflexivity.
Qed.

Lemma length_grid (r c : nat) f : length (grid r c f) = r * c.
Proof. apply length_rows_from. Qed.

Lemma nth_rows_from (s r c i j : nat) f d :
  i < r -> j < c ->
  nth (i * c + j) (concat (map (fun i => map (f i) (seq 0 c)) (seq s r))) d
  = f (s + i) j.
Proof.
  revert s i; induction r as [|r IH]; intros s i Hi Hj; [lia|].
  simpl. destruct i as [|i].
  - simpl. rewrite app_nth1 by (rewrite length_map, length_seq; exact Hj).
    rewrite Nat.add_0_r.
    rewrite nth_indep with (d' := f s 0)
      by (rewrite length_map, length_seq; exact Hj).
    rewrite map_nth with (d := 0), seq_nth by exact Hj. reflexivity.
  - rewrite app_nth2 by (rewrite length_map, length_seq; simpl; lia).
    rewrite length_map, length_seq.
    replace (S i * c + j - c) with (i * c + j) by (simpl; lia).
    rewrite IH by lia. f_equal. lia.
Qed.

Lemma nth_grid (r c i j : nat) f d :
  i < r -> j < c -> nth (i * c + j) (grid r c f) d = f i j.
Proof. intros. unfold grid. rewrite nth_rows_from; auto. Qed.

Lemma nth_grid_flat (r c p : nat) f d :
  p < r * c -> nth p (grid r c f) d = f (p / c) (p mod c).
Proof.
  intros Hp. assert (Hc : c <> 0) by (intro; subst; lia).
  rewrite (Nat.div_mod_eq p c) at 1.
  rewrite (Nat.mul_comm c). apply nth_grid.
  - apply Nat.Div0.div_lt_upper_bound. lia.
  - apply Nat.mod_upper_bound; exact Hc.
Qed.

Lemma grid_ext (r c : nat) f g :
  (forall i j, i < r -> j < c -> f i j = g i j) -> grid r c f = grid r c g.
Proof.
  intros H. unfold grid. f_equal. apply map_ext_in. intros i Hi.
  apply in_seq in Hi. apply map_ext_in. intros j Hj. apply in_seq in Hj.
  apply H; lia.
Qed.

Lemma item_tabulate (r c i j : nat) f d :
  i < r -> j < c -> item d (tabulate r c f) i j = f i j.
Proof. intros. unfold item, tabulate, ncols; simpl. apply nth_grid; auto. Qed.

Lemma wf_tabulate (r c : nat) f : wf (tabulate r c f).
Proof. unfold wf, tabulate, nrows, ncols; simpl. apply length_grid. Qed.

Lemma tabulate_ext (r c : nat) f g :
  (forall i j, i < r -> j < c -> f i j = g i j) ->
  tabulate r c f = tabulate r c g.
Proof. intros H. unfold tabulate. f_equal. apply grid_ext, H. Qed.

(** A well-formed array is the table of its own entries. *)
Lemma tabulate_item (M : ndarray A) d :
  wf M -> tabulate (nrows M) (ncols M) (item d M) = M.
Proof.
  intros Hwf. destruct M as [[r c] xs]. unfold wf, nrows, ncols in *.
  simpl in *. unfold tabulate. f_equal.
  apply nth_ext with (d := d) (d' := d).
  - rewrite length_grid. symmetry; exact Hwf.
  - intros p Hp. rewrite length_grid in Hp. rewrite nth_grid_flat by exact Hp.
    unfold item, ncols; simpl.
    rewrite Nat.mul_comm, <- Nat.div_mod_eq. reflexivity.
Qed.

End Grid.

Lemma at_tabulate (r c i j : nat) (f : nat -> nat -> R) :
  i < r -> j < c -> at_ (tabulate r c f) i j = f i j.
Proof. intros. unfold at_. apply item_tabulate; auto. Qed.

(** Two well-formed matrices of one shape with the same entries are equal. *)
Lemma matrix_ext (M N : matrix) :
  wf M -> wf N -> shape M = shape N ->
  (forall i j, i < nrows M -> j < ncols M -> at_ M i j = at_ N i j) ->
  M = N.
Proof.
  intros HM HN Hs H.
  rewrite <- (tabulate_item M 0%R HM), <- (tabulate_item N 0%R HN).
  unfold nrows, ncols in *. rewrite <- Hs. apply tabulate_ext. exact H.
Qed.

(** ** Block arithmetic *)

Lemma div_block (p r k : nat) :
  0 < r -> (k * r <= p /\ p < (k + 1) * r) <-> p / r = k.
Proof.
  intros Hr; split.
  - intros [H1 H2]. symmetry.
    apply Nat.div_unique with (r := p - k * r); lia.
  - intros <-. pose proof (Nat.div_mod_eq p r) as E.
    pose proof (Nat.mod_upper_bound p r) as U. split; nia.
Qed.

Lemma mod_block (p r k : nat) : p / r = k -> p mod r = p - k * r.
Proof. intros <-. pose proof (Nat.div_mod_eq p r). lia. Qed.

Lemma div_mul_add (k r a : nat) : a < r -> (k * r + a) / r = k.
Proof. intros Ha. apply div_block; lia. Qed.

Lemma mod_mul_add (k r a : nat) : a < r -> (k * r + a) mod r = a.
Proof. intros Ha. rewrite (mod_block _ _ _ (div_mul_add k r a Ha)). lia. Qed.

Lemma bidx_in_range (len i : nat) : i < len -> bidx len i = i.
Proof. unfold bidx. destruct (Nat.eqb_spec len 1); lia. Qed.

(** ** [fill_diagonal] *)

(** One assignment [M[i*r:(i+1)*r, i*c:(i+1)*c] = F] that stays inside [M]. *)
Lemma set_block_inside (M F : matrix) (i : nat) :
  0 < nrows F -> 0 < ncols F ->
  (i + 1) * nrows F <= nrows M -> (i + 1) * ncols F <= ncols M ->
  exists M',
    set_block M (i * nrows F) ((i + 1) * nrows F)
                (i * ncols F) ((i + 1) * ncols F) F = Ok M'
    /\ shape M' = shape M /\ wf M'
    /\ forall p q, p < nrows M -> q < ncols M ->
         at_ M' p q =
         if (p / nrows F =? i) && (q / ncols F =? i)
         then at_ F (p mod nrows F) (q mod ncols F) else at_ M p q.
Proof.
  intros Hr Hc HR HC. unfold set_block.
  rewrite !Nat.min_l by lia.
  replace ((i + 1) * nrows F - i * nrows F) with (nrows F) by lia.
  replace ((i + 1) * ncols F - i * ncols F) with (ncols F) by lia.
  unfold broadcastable at 1 2. rewrite !Nat.eqb_refl. simpl.
  eexists; split; [reflexivity|]. split; [|split].
  - unfold nrows, ncols. simpl. destruct (shape M); reflexivity.
  - apply wf_tabulate.
  - intros p q Hp Hq. rewrite at_tabulate by assumption.
    destruct (Nat.eqb_spec (p / nrows F) i) as [Ep|Ep];
      destruct (Nat.eqb_spec (q / ncols F) i) as [Eq|Eq]; simpl.
    + pose proof (proj2 (div_block p (nrows F) i Hr) Ep) as [P1 P2].
      pose proof (proj2 (div_block q (ncols F) i Hc) Eq) as [Q1 Q2].
      rewrite (proj2 (Nat.leb_le _ _) P1), (proj2 (Nat.ltb_lt _ _) P2).
      rewrite (proj2 (Nat.leb_le _ _) Q1), (proj2 (Nat.ltb_lt _ _) Q2).
      simpl. rewrite (mod_block _ _ _ Ep), (mod_block _ _ _ Eq).
      rewrite !bidx_in_range by lia. reflexivity.
    + destruct (Nat.leb_spec (i * ncols F) q);
        destruct (Nat.ltb_spec q ((i + 1) * ncols F));
        rewrite ?andb_false_r; simpl; try reflexivity.
      exfalso. apply Eq. apply div_block; auto.
    + destruct (Nat.leb_spec (i * nrows F) p);
        destruct (Nat.ltb_spec p ((i + 1) * nrows F));
        simpl; try reflexivity.
      exfalso. apply Ep. apply div_block; auto.
    + destruct (Nat.leb_spec (i * nrows F) p);
        destruct (Nat.ltb_spec p ((i + 1) * nrows F));
        simpl; try reflexivity.
      exfalso. apply Ep. apply div_block; auto.
Qed.

(** The loop of [fill_diagonal] after [k] iterations. *)
Lemma fill_loop (T F : matrix) (k : nat) :
  0 < nrows F -> 0 < ncols F ->
  k * nrows F <= nrows T -> k * ncols F <= ncols T ->
  exists M,
    fold_left
      (fun acc i =>
         M <- acc ;;
         set_block M (i * nrows F) ((i + 1) * nrows F)
                     (i * ncols F) ((i + 1) * ncols F) F)
      (seq 0 k) (Ok T) = Ok M
    /\ shape M = shape T /\ (wf T -> wf M)
    /\ forall p q, p < nrows T -> q < ncols T ->
         at_ M p q =
         if (p / nrows F =? q / ncols F) && (p / nrows F <? k)
         then at_ F (p mod nrows F) (q mod ncols F) else at_ T p q.
Proof.
  intros Hr Hc. induction k as [|k IH]; intros HR HC.
  - exists T. simpl. repeat split; auto.
    intros p q _ _. rewrite andb_false_r. reflexivity.
  - destruct IH as (M & EM & SM & WM & HM); [lia|lia|].
    assert (RM : nrows M = nrows T) by (unfold nrows; rewrite SM; reflexivity).
    assert (CM : ncols M = ncols T) by (unfold ncols; rewrite SM; reflexivity).
    destruct (set_block_inside M F k Hr Hc) as (M' & E' & S' & W' & H');
      [lia|lia|].
    exists M'. rewrite seq_S, fold_left_app, EM. simpl.
    split; [exact E'|]. split; [congruence|]. split; [auto|].
    intros p q Hp Hq. rewrite H', HM by lia.
    destruct (Nat.eqb_spec (p / nrows F) k) as [Ep|Ep];
      destruct (Nat.eqb_spec (q / ncols F) k) as [Eq|Eq]; simpl.
    + rewrite Ep, Eq, Nat.eqb_refl.
      rewrite (proj2 (Nat.ltb_lt k (S k))) by lia. reflexivity.
    + destruct (Nat.eqb_spec (p / nrows F) (q / ncols F)); [lia|].
      reflexivity.
    + destruct (Nat.eqb_spec (p / nrows F) (q / ncols F)); [|reflexivity].
      simpl. destruct (Nat.ltb_spec (p / nrows F) k);
        destruct (Nat.ltb_spec (p / nrows F) (S k)); try reflexivity; lia.
    + destruct (Nat.eqb_spec (p / nrows F) (q / ncols F)); [|reflexivity].
      simpl. destruct (Nat.ltb_spec (p / nrows F) k);
        destruct (Nat.ltb_spec (p / nrows F) (S k)); try reflexivity; lia.
Qed.

(** When the two ratios agree, [fill_diagonal] returns, and the result holds
    [floor(R/r)] copies of the filler along the diagonal. *)
Lemma fill_diagonal_spec (T F : matrix) :
  0 < nrows F -> 0 < ncols F ->
  nrows T * ncols F = ncols T * nrows F ->
  exists M,
    fill_diagonal T F = Ok M
    /\ shape M = shape T /\ (wf T -> wf M)
    /\ forall p q, p < nrows T -> q < ncols T ->
         at_ M p q =
         if (p / nrows F =? q / ncols F) && (p / nrows F <? nrows T / nrows F)
         then at_ F (p mod nrows F) (q mod ncols F) else at_ T p q.
Proof.
  intros Hr Hc E. unfold fill_diagonal.
  destruct (Nat.eqb_spec (nrows F) 0); [lia|].
  destruct (Nat.eqb_spec (ncols F) 0); [lia|]. simpl.
  rewrite (proj2 (Nat.eqb_eq _ _) E). simpl.
  apply fill_loop; auto.
  - rewrite Nat.mul_comm. apply Nat.Div0.mul_div_le.
  - pose proof (Nat.Div0.mul_div_le (nrows T) (nrows F)). nia.
Qed.

(** C2 (as amended).  For a target and a filler whose dimensions are all
    below 2^25, the filler having at least one row and one column,
    [fill_diagonal] raises [AssertionError] whenever the ratios R/r and C/c
    differ, and whenever they agree it returns a matrix of the target's
    shape, whether or not the common ratio is an integer. *)
Theorem fill_diagonal_rejects_exactly_unequal_ratios (T F : matrix) :
  small_dimension (nrows T) -> small_dimension (ncols T) ->
  small_dimension (nrows F) -> small_dimension (ncols F) ->
  0 < nrows F -> 0 < ncols F ->
  (nrows T * ncols F <> ncols T * nrows F ->
   fill_diagonal T F = Raise AssertionError)
  /\ (nrows T * ncols F = ncols T * nrows F ->
      exists M, fill_diagonal T F = Ok M /\ shape M = shape T).
Proof.
  intros _ _ _ _ Hr Hc. split.
  - intros Hne. unfold fill_diagonal.
    destruct (Nat.eqb_spec (nrows F) 0); [lia|].
    destruct (Nat.eqb_spec (ncols F) 0); [lia|]. simpl.
    destruct (Nat.eqb_spec (nrows T * ncols F) (ncols T * nrows F));
      [contradiction|reflexivity].
  - intros E. destruct (fill_diagonal_spec T F Hr Hc E) as (M & EM & SM & _).
    exists M; auto.
Qed.

Lemma fill_diagonal_rejects_exactly_unequal_ratios_witness :
  (3 * 2 <> 4 * 2 ->
   fill_diagonal (zeros 3 4) (of_rows 2 [[1; 2]; [3; 4]]%R)
   = Raise AssertionError)
  /\ (3 * 2 = 4 * 2 ->
      exists M, fill_diagonal (zeros 3 4) (of_rows 2 [[1; 2]; [3; 4]]%R) = Ok M
                /\ shape M = shape (zeros 3 4)).
Proof.
  apply (fill_diagonal_rejects_exactly_unequal_ratios
           (zeros 3 4) (of_rows 2 [[1; 2]; [3; 4]]%R));
    try (vm_compute; reflexivity); vm_compute; lia.
Defined.

(** C2, counterexample.  A (5,5) target and a (2,2) filler have the equal,
    non-integral ratios 5/2: the call does not fail; it fills two blocks and
    leaves the last row and column as they were. *)
Lemma fill_diagonal_5x5_2x2_returns :
  5 mod 2 <> 0
  /\ fill_diagonal (zeros 5 5) (of_rows 2 [[1; 2]; [3; 4]]%R)
     = Ok (of_rows 5 [[1; 2; 0; 0; 0];
                      [3; 4; 0; 0; 0];
                      [0; 0; 1; 2; 0];
                      [0; 0; 3; 4; 0];
                      [0; 0; 0; 0; 0]]%R).
Proof. split; [discriminate|reflexivity]. Qed.

(** ** Reading the state *)

Lemma value_of_has_value st n M e :
  has_value st n M -> value_of st n e = Ok M.
Proof.
  intros (nd & l & Hn & Hv & Hl). unfold value_of, value_ref, get_node, read.
  rewrite Hn. simpl. rewrite Hv. simpl. rewrite Hl. reflexivity.
Qed.

Lemma Node_shape_has_value st n M :
  has_value st n M -> Node_shape st n = Ok (shape M).
Proof.
  intros H. unfold Node_shape. rewrite (value_of_has_value _ _ _ _ H).
  reflexivity.
Qed.

Lemma Node_dimension_has_value st n M :
  has_value st n M -> Node_dimension st n = Ok (nrows M * ncols M).
Proof.
  intros H. unfold Node_dimension. rewrite (value_of_has_value _ _ _ _ H).
  reflexivity.
Qed.

Lemma parent_at_has_parents st n ps i p :
  has_parents st n ps -> nth_error ps i = Some p -> parent_at st n i = Ok p.
Proof.
  intros (nd & Hn & <-) Hp. unfold parent_at, get_node.
  rewrite Hn. simpl. rewrite Hp. reflexivity.
Qed.

Lemma has_value_fun st n M N : has_value st n M -> has_value st n N -> M = N.
Proof.
  intros (nd & l & Hn & Hv & Hl) (nd' & l' & Hn' & Hv' & Hl'). congruence.
Qed.

Lemma nrows_shape {A} (M : ndarray A) (r c : nat) :
  shape M = (r, c) -> nrows M = r.
Proof. intros H. unfold nrows. rewrite H. reflexivity. Qed.

Lemma ncols_shape {A} (M : ndarray A) (r c : nat) :
  shape M = (r, c) -> ncols M = c.
Proof. intros H. unfold ncols. rewrite H. reflexivity. Qed.

Lemma Node_dimension_shape st n M r c :
  has_value st n M -> shape M = (r, c) -> Node_dimension st n = Ok (r * c).
Proof.
  intros HV HS. rewrite (Node_dimension_has_value _ _ _ HV).
  rewrite (nrows_shape _ _ _ HS), (ncols_shape _ _ _ HS). reflexivity.
Qed.

(** ** Updates of the node table and of the heap *)

Section Update.
Context {A : Type}.
Implicit Types (l : list A) (x : A).

Lemma length_update l k x : length (update l k x) = length l.
Proof.
  revert k; induction l as [|h t IH]; intros [|k]; simpl; auto.
Qed.

Lemma nth_error_update_eq l k x :
  k < length l -> nth_error (update l k x) k = Some x.
Proof.
  revert k; induction l as [|h t IH]; intros [|k] H; simpl in *;
    try lia; auto. apply IH. lia.
Qed.

Lemma nth_error_update_neq l k k' x :
  k <> k' -> nth_error (update l k x) k' = nth_error l k'.
Proof.
  revert k k'; induction l as [|h t IH]; intros [|k] [|k'] H; simpl;
    auto; try lia.
Qed.

Lemma update_last l x y : update (l ++ [x]) (length l) y = l ++ [y].
Proof. induction l as [|h t IH]; simpl; [reflexivity|]. now rewrite IH. Qed.

Lemma nth_error_last l x : nth_error (l ++ [x]) (length l) = Some x.
Proof.
  rewrite nth_error_app2 by lia. rewrite Nat.sub_diag. reflexivity.
Qed.

Lemma nth_error_old l x k y :
  nth_error l k = Some y -> nth_error (l ++ [x]) k = Some y.
Proof.
  intros H. rewrite nth_error_app1; [exact H|].
  apply nth_error_Some. congruence.
Qed.

End Update.

(** ** [SoftMax]: the Jacobian is not provided *)

(** C5.  [SoftMax.get_jacobi] raises [NotImplementedError] for every node,
    parent argument and state; [SoftMax.compute] never raises it, and
    returns whenever the first parent holds a matrix. *)
Theorem SoftMax_unsupported_only_from_get_jacobi
        (self parent : node_ref) (st : state) :
  SoftMax.get_jacobi self parent st
  = Raise (NotImplementedError "Don't use SoftMax's get_jacobi")
  /\ (forall msg, SoftMax.compute self st <> Raise (NotImplementedError msg))
  /\ (forall ps p0 M,
         has_parents st self (p0 :: ps) -> has_value st p0 M ->
         exists st', SoftMax.compute self st = Ok st').
Proof.
  split; [reflexivity|]. split.
  - intros msg. unfold SoftMax.compute, SoftMax.softmax, parent_at, value_ref,
      set_value, read, get_node, alloc, write. simpl.
    destruct (nth_error (nodes st) self) as [nd|] eqn:En; simpl;
      [|discriminate].
    destruct (parents nd) as [|p0 ps]; simpl; [discriminate|].
    destruct (nth_error (nodes st) p0) as [np|]; simpl; [|discriminate].
    destruct (value np) as [a|]; simpl; [|discriminate].
    destruct (nth_error (heap st) a) as [M|] eqn:Ea; simpl; [|discriminate].
    rewrite nth_error_update_eq
      by (apply nth_error_Some; rewrite Ea; discriminate).
    simpl. rewrite En. simpl. discriminate.
  - intros ps p0 M (nd & Hn & Hps) (np & a & Hp & Hv & Ha).
    unfold SoftMax.compute, SoftMax.softmax, parent_at, value_ref,
      set_value, read, get_node, alloc, write. simpl.
    rewrite Hn. simpl. rewrite Hps. simpl. rewrite Hp. simpl.
    rewrite Hv. simpl. rewrite Ha. simpl.
    rewrite nth_error_update_eq
      by (apply nth_error_Some; rewrite Ha; discriminate).
    simpl. rewrite Hn. simpl. eexists; reflexivity.
Qed.

Lemma SoftMax_unsupported_only_from_get_jacobi_witness :
  exists st', SoftMax.compute 1 softmax_example = Ok st'.
Proof.
  apply (proj2 (proj2 (SoftMax_unsupported_only_from_get_jacobi
                         1 0 softmax_example))
               [] 0 (of_rows 1 [[200%R]])).
  - exists (MkNode [0] None). split; reflexivity.
  - exists (MkNode [] (Some 0)), 0. repeat split; reflexivity.
Defined.

(** ** Flattening *)

Lemma ravel_tabulate {A} (d : A) (r c : nat) (f : nat -> nat -> A) :
  ravel d (tabulate r c f) = grid r c f.
Proof.
  unfold ravel.
  change (nrows (tabulate r c f)) with r.
  change (ncols (tabulate r c f)) with c.
  apply grid_ext. intros i j Hi Hj. apply item_tabulate; assumption.
Qed.

Lemma length_ravel {A} (d : A) (M : ndarray A) :
  length (ravel d M) = nrows M * ncols M.
Proof. apply length_grid. Qed.

Lemma ravel_wf {A} (d : A) (M : ndarray A) : wf M -> ravel d M = data M.
Proof.
  intros H. pose proof (tabulate_item M d H) as E.
  unfold ravel. change (grid (nrows M) (ncols M) (item d M))
    with (data (tabulate (nrows M) (ncols M) (item d M))).
  rewrite E. reflexivity.
Qed.

(** ** [logistic] *)

Lemma shape_diag (v : list R) : shape (diag v) = (length v, length v).
Proof. reflexivity. Qed.

Lemma at_diag (v : list R) (i j : nat) :
  i < length v -> j < length v ->
  at_ (diag v) i j = if i =? j then nth i v 0%R else 0%R.
Proof. intros. unfold diag. rewrite at_tabulate by assumption. reflexivity. Qed.

(** C9 (as amended).  For a logistic node whose value [V], of shape (r, c),
    has been computed, [get_jacobi] returns a square matrix of size
    [dimension(self)] = r*c whose [i]-th diagonal entry is [v * (1 - v)]
    for [v] the [i]-th entry of [V] in row-major order, that is the entry
    of [V] at row [i / c] and column [i mod c], and whose other entries are
    zero. *)
Theorem logistic_get_jacobi_is_diagonal
        (self parent : node_ref) (st : state) (V : matrix) (r c : nat) :
  has_value st self V -> shape V = (r, c) ->
  exists J,
    logistic.get_jacobi self parent st = Ok J
    /\ Node_dimension st self = Ok (r * c)
    /\ shape J = (r * c, r * c)
    /\ forall i j, i < r * c -> j < r * c ->
         at_ J i j = if i =? j
                     then (at_ V (i / c) (i mod c)
                           * (1 - at_ V (i / c) (i mod c)))%R
                     else 0%R.
Proof.
  intros HV SV. unfold logistic.get_jacobi.
  rewrite (value_of_has_value _ _ _ _ HV). simpl.
  rewrite (Node_dimension_shape _ _ _ _ _ HV SV).
  assert (L : length (A1 (logistic.derivative V)) = r * c).
  { unfold A1. rewrite length_ravel. unfold logistic.derivative.
    change (nrows (tabulate (nrows V) (ncols V)
                     (fun i j => (at_ V i j * (1 - at_ V i j))%R)))
      with (nrows V).
    change (ncols (tabulate (nrows V) (ncols V)
                     (fun i j => (at_ V i j * (1 - at_ V i j))%R)))
      with (ncols V).
    rewrite (nrows_shape _ _ _ SV), (ncols_shape _ _ _ SV). reflexivity. }
  exists (diag (A1 (logistic.derivative V))).
  split; [reflexivity|]. split; [reflexivity|].
  split; [rewrite shape_diag, L; reflexivity|].
  intros i j Hi Hj. rewrite at_diag by (rewrite L; assumption).
  destruct (i =? j); [|reflexivity].
  unfold A1, logistic.derivative. rewrite ravel_tabulate.
  rewrite (nrows_shape _ _ _ SV), (ncols_shape _ _ _ SV).
  rewrite nth_grid_flat by exact Hi. reflexivity.
Qed.

Lemma logistic_get_jacobi_is_diagonal_witness :
  exists J,
    logistic.get_jacobi 1 0 logistic_square_example = Ok J
    /\ Node_dimension logistic_square_example 1 = Ok (2 * 2)
    /\ shape J = (2 * 2, 2 * 2)
    /\ forall i j, i < 2 * 2 -> j < 2 * 2 ->
         at_ J i j = if i =? j
                     then (at_ logistic_square_value (i / 2) (i mod 2)
                           * (1 - at_ logistic_square_value
                                      (i / 2) (i mod 2)))%R
                     else 0%R.
Proof.
  apply (logistic_get_jacobi_is_diagonal 1 0 logistic_square_example
           logistic_square_value 2 2).
  - exists (MkNode [0] (Some 1)), 1. repeat split; reflexivity.
  - reflexivity.
Defined.

(** C9, counterexample.  For the value [[1/2, 1/4], [1/8, 1/16]] the
    diagonal entry of index 1 is built from the entry 1/4 at row 0,
    column 1; the entry of index 1 of the column-major flattening is the
    entry 1/8 at row 1, column 0, which would give a different number. *)
Lemma logistic_get_jacobi_diagonal_is_not_in_column_major_order :
  exists J,
    logistic.get_jacobi 1 0 logistic_square_example = Ok J
    /\ at_ logistic_square_value 0 1 = (1 / 4)%R
    /\ at_ logistic_square_value 1 0 = (1 / 8)%R
    /\ nth 1 (vec_colmajor logistic_square_value) 0%R
       = at_ logistic_square_value 1 0
    /\ at_ J 1 1 = (1 / 4 * (1 - 1 / 4))%R
    /\ at_ J 1 1 <> (at_ logistic_square_value 1 0
                     * (1 - at_ logistic_square_value 1 0))%R.
Proof.
  exists (diag (A1 (logistic.derivative logistic_square_value))).
  split; [reflexivity|]. split; [reflexivity|]. split; [reflexivity|].
  split; [reflexivity|].
  assert (E1 : at_ (diag (A1 (logistic.derivative logistic_square_value)))
                   1 1 = (1 / 4 * (1 - 1 / 4))%R) by reflexivity.
  assert (E2 : at_ logistic_square_value 1 0 = (1 / 8)%R) by reflexivity.
  split; [exact E1|]. rewrite E1, E2. lra.
Qed.

(** ** [Add] *)

Lemma Add_get_jacobi_eye (self parent : node_ref) (st : state) (V : matrix) :
  has_value st self V ->
  Add.get_jacobi self parent st = Ok (eye (nrows V * ncols V)).
Proof.
  intros HV. unfold Add.get_jacobi.
  rewrite (Node_dimension_has_value _ _ _ HV). reflexivity.
Qed.

Section AddLoop.
Variables (N : list Node) (H : list matrix) (self : node_ref).
Variables (ps0 : list node_ref) (r c : nat).
Hypothesis Hself : nth_error N self = Some (MkNode ps0 (Some (length H))).

(** What the loop needs of a parent: it holds a matrix object allocated
    before the node's own value. *)
Let holds : node_ref -> matrix -> Prop := holds_in N H.

Lemma Add_accumulate_step (p : node_ref) (P acc : matrix) :
  holds p P -> shape P = (r, c) -> shape acc = (r, c) ->
  Add.accumulate self (MkState N (H ++ [acc])) p
  = Ok (MkState N (H ++ [tabulate r c
                           (fun i j => (at_ acc i j
                                        + at_ P (bidx r i) (bidx c j))%R)])).
Proof.
  intros (np & lp & Hp & Hv & Hl) SP Sacc.
  unfold Add.accumulate, value_of, value_ref, get_node, read, write. simpl.
  rewrite Hself. simpl. rewrite nth_error_last. simpl.
  rewrite Hp. simpl. rewrite Hv. simpl.
  rewrite (nth_error_old _ _ _ _ Hl). simpl.
  unfold iadd, nrows, ncols. rewrite SP, Sacc. simpl.
  unfold broadcastable. rewrite !Nat.eqb_refl. simpl.
  rewrite update_last. reflexivity.
Qed.

Lemma Add_loop (qs : list node_ref) (Ms : list matrix) :
  Forall2 holds qs Ms -> Forall (fun M => shape M = (r, c)) Ms ->
  forall acc : matrix, shape acc = (r, c) -> wf acc ->
  for_each qs (Add.accumulate self) (MkState N (H ++ [acc]))
  = Ok (MkState N
          (H ++ [tabulate r c
                   (fun i j =>
                      fold_left (fun a M => (a + at_ M i j)%R) Ms
                                (at_ acc i j))])).
Proof.
  induction 1 as [|p P qs Ms HP _ IH]; intros HS acc Sacc Wacc.
  - simpl.
    assert (E : tabulate r c (fun i j => at_ acc i j) = acc).
    { pose proof (tabulate_item acc 0%R Wacc) as E.
      unfold nrows, ncols in E. rewrite Sacc in E. exact E. }
    rewrite E. reflexivity.
  - inversion HS as [|? ? SP HS']; subst. cbn [for_each].
    rewrite (Add_accumulate_step p P acc HP SP Sacc). cbn [rbind].
    rewrite IH; [|assumption|reflexivity|apply wf_tabulate].
    match goal with
    | |- Ok (MkState _ (_ ++ [?a])) = Ok (MkState _ (_ ++ [?b])) =>
        assert (E : a = b); [|rewrite E; reflexivity]
    end.
    apply tabulate_ext. intros i j Hi Hj.
    rewrite at_tabulate by assumption.
    rewrite !bidx_in_range by assumption. reflexivity.
Qed.

End AddLoop.

(** Rebinding [self.value] leaves what the other nodes hold in place. *)
Lemma holds_after_rebinding (st : state) (self : node_ref) (x : Node)
      (qs : list node_ref) (Ms : list matrix) :
  Forall2 (has_value st) qs Ms -> ~ In self qs ->
  Forall2 (fun p M =>
             exists np lp,
               nth_error (update (nodes st) self x) p = Some np
               /\ value np = Some lp /\ nth_error (heap st) lp = Some M)
          qs Ms.
Proof.
  induction 1 as [|p M qs Ms (np & lp & Hp & Hv & Hl) _ IH]; intros Hnot.
  - constructor.
  - constructor.
    + exists np, lp. rewrite nth_error_update_neq; [auto|].
      intros ->. apply Hnot. left; reflexivity.
    + apply IH. intros Hin. apply Hnot. right; exact Hin.
Qed.

(** C10.  For a non-empty list of parents holding matrices of one shape
    (r, c), [Add.compute] returns and binds the node's value to the
    entrywise sum of the parents' values; [Add.get_jacobi] then returns,
    whichever node is passed as the parent, the identity matrix of size
    [dimension(self)] = r*c: a square matrix with 1 on the diagonal and 0
    elsewhere. *)
Theorem Add_compute_sums_and_get_jacobi_is_identity
        (st : state) (self : node_ref) (ps : list node_ref)
        (Ms : list matrix) (r c : nat) :
  ps <> [] ->
  has_parents st self ps -> ~ In self ps ->
  Forall2 (has_value st) ps Ms ->
  Forall (fun M => shape M = (r, c)) Ms ->
  exists st',
    Add.compute self st = Ok st'
    /\ has_value st' self (tabulate r c (sum_at Ms))
    /\ Node_dimension st' self = Ok (r * c)
    /\ forall parent,
         exists J,
           Add.get_jacobi self parent st' = Ok J
           /\ shape J = (r * c, r * c)
           /\ forall i j, i < r * c -> j < r * c ->
                at_ J i j = if i =? j then 1%R else 0%R.
Proof.
  intros Hne HP Hnot HV HS.
  destruct ps as [|p0 ps']; [contradiction|].
  pose proof HV as HV0. inversion HV0 as [|? M0 ? Ms' H0 _]; subst.
  pose proof HS as HS0. inversion HS0 as [|? ? S0 _]; subst.
  pose proof HP as (nd & Hn & Hps).
  assert (Lself : self < length (nodes st))
    by (apply nth_error_Some; rewrite Hn; discriminate).
  set (V := tabulate r c (sum_at (M0 :: Ms'))).
  assert (HV' : has_value
                  (MkState (update (nodes st) self
                              (MkNode (p0 :: ps') (Some (length (heap st)))))
                           (heap st ++ [V])) self V).
  { exists (MkNode (p0 :: ps') (Some (length (heap st)))), (length (heap st)).
    simpl. rewrite nth_error_update_eq by exact Lself.
    rewrite nth_error_last. auto. }
  eexists. split; [|split; [exact HV'|split]].
  - unfold Add.compute.
    rewrite (parent_at_has_parents st self (p0 :: ps') 0 p0 HP eq_refl).
    cbn [rbind]. rewrite (Node_shape_has_value st p0 M0 H0), S0.
    cbn [rbind np_zeros as_index fst snd alloc].
    unfold set_value, get_node. cbn [nodes heap]. rewrite Hn. cbn [rbind].
    cbn [nodes]. rewrite nth_error_update_eq by exact Lself.
    cbn [rbind parents]. rewrite Hps.
    pose proof (Add_loop _ (heap st) self (p0 :: ps') r c
                  (nth_error_update_eq _ _ _ Lself) (p0 :: ps') (M0 :: Ms')
                  (holds_after_rebinding st self _ _ _ HV Hnot) HS
                  (zeros r c) eq_refl (wf_tabulate _ _ _)) as Loop.
    assert (E : tabulate r c
                  (fun i j =>
                     fold_left (fun a M => (a + at_ M i j)%R) (M0 :: Ms')
                               (at_ (zeros r c) i j)) = V).
    { apply tabulate_ext. intros i j Hi Hj. unfold zeros.
      rewrite at_tabulate by assumption. reflexivity. }
    rewrite E in Loop. exact Loop.
  - rewrite (Node_dimension_has_value _ _ _ HV'). reflexivity.
  - intros parent. exists (eye (r * c)).
    split; [rewrite (Add_get_jacobi_eye self parent _ V HV'); reflexivity|].
    split; [reflexivity|].
    intros i j Hi Hj. unfold eye. rewrite at_tabulate by assumption.
    reflexivity.
Qed.

Lemma Add_compute_sums_and_get_jacobi_is_identity_witness :
  exists st',
    Add.compute 2 add_example = Ok st'
    /\ has_value st' 2
         (tabulate 1 2 (sum_at [of_rows 2 [[1; 2]]%R; of_rows 2 [[10; 20]]%R]))
    /\ Node_dimension st' 2 = Ok (1 * 2)
    /\ forall parent,
         exists J,
           Add.get_jacobi 2 parent st' = Ok J
           /\ shape J = (1 * 2, 1 * 2)
           /\ forall i j, i < 1 * 2 -> j < 1 * 2 ->
                at_ J i j = if i =? j then 1%R else 0%R.
Proof.
  apply (Add_compute_sums_and_get_jacobi_is_identity add_example 2 [0; 1]).
  - discriminate.
  - exists (MkNode [0; 1] None). split; reflexivity.
  - simpl. intros [E|[E|[]]]; discriminate E.
  - constructor; [|constructor; [|constructor]].
    + exists (MkNode [] (Some 0)), 0. repeat split; reflexivity.
    + exists (MkNode [] (Some 1)), 1. repeat split; reflexivity.
  - repeat constructor.
Defined.

(** ** The parent argument is not checked *)

(** C7 (as amended).  [get_jacobi] does not check that its argument is one
    of the node's parents: for a node [q] that is not a parent, [Add] still
    returns the identity matrix of size [dimension(self)] and [logistic]
    still returns its diagonal matrix, the results they give for a parent. *)
Theorem get_jacobi_does_not_check_the_parent
        (st : state) (self q : node_ref) (ps : list node_ref) (V : matrix) :
  has_parents st self ps -> ~ In q ps -> has_value st self V ->
  Add.get_jacobi self q st = Ok (eye (nrows V * ncols V))
  /\ logistic.get_jacobi self q st = Ok (diag (A1 (logistic.derivative V)))
  /\ forall p, In p ps ->
       Add.get_jacobi self p st = Add.get_jacobi self q st
       /\ logistic.get_jacobi self p st = logistic.get_jacobi self q st.
Proof.
  intros _ _ HV. split; [apply Add_get_jacobi_eye; exact HV|].
  split.
  - unfold logistic.get_jacobi. rewrite (value_of_has_value _ _ _ _ HV).
    reflexivity.
  - intros p _. split; reflexivity.
Qed.

Lemma get_jacobi_does_not_check_the_parent_witness :
  Add.get_jacobi 2 1 stranger_example = Ok (eye (1 * 2))
  /\ logistic.get_jacobi 2 1 stranger_example
     = Ok (diag (A1 (logistic.derivative (of_rows 2 [[1; 2]]%R))))
  /\ forall p, In p [0] ->
       Add.get_jacobi 2 p stranger_example
       = Add.get_jacobi 2 1 stranger_example
       /\ logistic.get_jacobi 2 p stranger_example
          = logistic.get_jacobi 2 1 stranger_example.
Proof.
  apply (get_jacobi_does_not_check_the_parent
           stranger_example 2 1 [0] (of_rows 2 [[1; 2]]%R)).
  - exists (MkNode [0] (Some 2)). split; reflexivity.
  - simpl. intros [E|[]]. discriminate E.
  - exists (MkNode [0] (Some 2)), 2. repeat split; reflexivity.
Defined.

(** C7, counterexample.  Node 1 is not a parent of the Add node 2, and
    [Add.get_jacobi] silently returns the 2x2 identity matrix for it. *)
Lemma Add_get_jacobi_of_a_stranger_is_the_identity :
  has_parents stranger_example 2 [0] /\ ~ In 1 [0]
  /\ Add.get_jacobi 2 1 stranger_example
     = Ok (of_rows 2 [[1; 0]; [0; 1]]%R).
Proof.
  split; [exists (MkNode [0] (Some 2)); split; reflexivity|].
  split; [simpl; intros [E|[]]; discriminate E|reflexivity].
Qed.

(** ** [SoftMax]: the clipping writes into the parent *)

(** [SoftMax.compute] binds the node to [softmax_of M], and the parent's
    matrix object now holds the clipped entries. *)
Lemma SoftMax_compute_spec (st : state) (self p0 : node_ref)
      (ps : list node_ref) (M : matrix) :
  has_parents st self (p0 :: ps) -> has_value st p0 M ->
  exists st',
    SoftMax.compute self st = Ok st'
    /\ has_value st' self (softmax_of M)
    /\ (self <> p0 -> has_value st' p0 (map_matrix SoftMax.clip M)).
Proof.
  intros (nd & Hn & Hps) (np & a & Hp & Hv & Ha).
  assert (Lself : self < length (nodes st))
    by (apply nth_error_Some; rewrite Hn; discriminate).
  assert (La : a < length (heap st))
    by (apply nth_error_Some; rewrite Ha; discriminate).
  unfold SoftMax.compute, SoftMax.softmax, parent_at, value_ref,
    set_value, read, get_node, alloc, write. simpl.
  rewrite Hn. simpl. rewrite Hps. simpl. rewrite Hp. simpl.
  rewrite Hv. simpl. rewrite Ha. simpl.
  rewrite nth_error_update_eq by exact La. simpl. rewrite Hn. simpl.
  eexists. split; [reflexivity|]. split.
  - eexists _, _. simpl. rewrite nth_error_update_eq by exact Lself.
    split; [reflexivity|]. split; [reflexivity|].
    rewrite nth_error_last. reflexivity.
  - intros Hne. exists np, a. simpl.
    rewrite nth_error_update_neq by exact Hne.
    split; [exact Hp|]. split; [exact Hv|].
    apply nth_error_old. apply nth_error_update_eq. exact La.
Qed.

(** C4, at its failing input.  The parent of the SoftMax node holds [[200]]
    before [compute]; afterwards the same node holds [[100]]: the clipping
    assignment has written into the parent's matrix. *)
Theorem SoftMax_compute_overwrites_the_parent_value :
  has_parents softmax_example 1 [0]
  /\ has_value softmax_example 0 (of_rows 1 [[200%R]])
  /\ exists st',
       SoftMax.compute 1 softmax_example = Ok st'
       /\ has_value st' 0 (of_rows 1 [[100%R]]).
Proof.
  assert (HP : has_parents softmax_example 1 [0])
    by (exists (MkNode [0] None); split; reflexivity).
  assert (HV : has_value softmax_example 0 (of_rows 1 [[200%R]]))
    by (exists (MkNode [] (Some 0)), 0; repeat split; reflexivity).
  split; [exact HP|]. split; [exact HV|].
  destruct (SoftMax_compute_spec softmax_example 1 0 [] _ HP HV)
    as (st' & E & _ & Hp0).
  exists st'. split; [exact E|].
  assert (C : map_matrix SoftMax.clip (of_rows 1 [[200%R]])
              = of_rows 1 [[100%R]]).
  { unfold map_matrix, of_rows, SoftMax.clip. simpl.
    destruct (Rgt_dec 200 100) as [_|Hn]; [reflexivity|]. exfalso; lra. }
  rewrite <- C. apply Hp0. discriminate.
Qed.

(** ** [SoftMax]: the normalisation *)

Lemma clip_is_min (x : R) : SoftMax.clip x = Rmin x 100.
Proof.
  unfold SoftMax.clip, Rmin.
  destruct (Rgt_dec x 100), (Rle_dec x 100); try reflexivity; lra.
Qed.







(** ** [Step] *)

(** C3.  [Step.get_jacobi] never returns: [np.zeros] is handed the bound
    method [self.dimension] in place of an integer and raises [TypeError],
    whatever the node, its value and the parent argument are. *)
Theorem Step_get_jacobi_raises_TypeError (self parent : node_ref) (st : state) :
  Step.get_jacobi self parent st = Raise TypeError.
Proof. reflexivity. Qed.

(** C6, at its failing input.  After [Step.compute] has returned,
    [Step.get_jacobi] called with the node's parent returns no matrix at
    all: it raises [TypeError]. *)
Theorem Step_get_jacobi_after_compute_returns_no_matrix :
  exists st',
    Step.compute 1 step_example = Ok st'
    /\ has_parents st' 1 [0]
    /\ (exists V, has_value st' 1 V /\ shape V = (1, 2))
    /\ Step.get_jacobi 1 0 st' = Raise TypeError.
Proof.
  eexists. split; [reflexivity|]. split; [|split].
  - eexists. split; reflexivity.
  - eexists. split; [eexists _, _; repeat split; reflexivity|reflexivity].
  - reflexivity.
Qed.

(** ** [MatMul] *)

Lemma rsum_ext (n : nat) (f g : nat -> R) :
  (forall i, i < n -> f i = g i) -> rsum n f = rsum n g.
Proof.
  induction n as [|n IH]; intros H; simpl; [reflexivity|].
  rewrite IH, H by auto. reflexivity.
Qed.

Lemma rsum_zero (n : nat) : rsum n (fun _ => 0%R) = 0%R.
Proof. induction n as [|n IH]; simpl; [reflexivity|]. rewrite IH. lra. Qed.

Lemma rsum_add (a b : nat) (f : nat -> R) :
  rsum (a + b) f = (rsum a f + rsum b (fun l => f (a + l)%nat))%R.
Proof.
  induction b as [|b IH].
  - rewrite Nat.add_0_r. simpl. lra.
  - rewrite Nat.add_succ_r. simpl. rewrite IH. lra.
Qed.

(** A sum over [m * k] indices, read as [m] consecutive runs of [k]. *)
Lemma rsum_runs (m k : nat) (f : nat -> R) :
  rsum (m * k) f = rsum m (fun i => rsum k (fun l => f (i * k + l))).
Proof.
  induction m as [|m IH]; [reflexivity|].
  replace (S m * k) with (m * k + k) by lia.
  rewrite rsum_add, IH. reflexivity.
Qed.

(** A sum with a single non-zero term. *)
Lemma rsum_delta (n i0 : nat) (g : nat -> R) :
  i0 < n -> rsum n (fun i => if i0 =? i then g i else 0%R) = g i0.
Proof.
  induction n as [|n IH]; intros H; [lia|]. simpl.
  destruct (Nat.eqb_spec i0 n) as [->|Hne].
  - rewrite (rsum_ext n _ (fun _ => 0%R)), rsum_zero; [lra|].
    intros i Hi. destruct (Nat.eqb_spec n i); [lia|reflexivity].
  - rewrite IH by lia. lra.
Qed.

Lemma nth_map_seq {A} (f : nat -> A) (n p : nat) (d : A) :
  p < n -> nth p (map f (seq 0 n)) d = f p.
Proof.
  intros Hp. rewrite nth_indep with (d' := f 0)
    by (rewrite length_map, length_seq; exact Hp).
  rewrite map_nth, seq_nth by exact Hp. reflexivity.
Qed.

Lemma nth_matvec (J : matrix) (v : list R) (p : nat) :
  p < nrows J ->
  nth p (matvec J v) 0%R
  = rsum (ncols J) (fun q => (at_ J p q * nth q v 0)%R).
Proof. intros Hp. unfold matvec. rewrite nth_map_seq by exact Hp. reflexivity. Qed.

Lemma length_matvec (J : matrix) (v : list R) :
  length (matvec J v) = nrows J.
Proof. unfold matvec. rewrite length_map, length_seq. reflexivity. Qed.

Lemma in_grid {A} (r c : nat) (f : nat -> nat -> A) (x : A) :
  In x (grid r c f) -> exists i j, i < r /\ j < c /\ x = f i j.
Proof.
  unfold grid. intros H. apply in_concat in H as (row & Hrow & Hx).
  apply in_map_iff in Hrow as (i & <- & Hi). apply in_seq in Hi.
  apply in_map_iff in Hx as (j & <- & Hj). apply in_seq in Hj.
  exists i, j. repeat split; lia.
Qed.

(** The permutation [np.arange(m*n).reshape((n, m)).T.ravel()]: position
    [a*n + i] holds [i*m + a]. *)
Lemma sort_index_spec (m n : nat) :
  MatMul.sort_index (m * n) (m, n) = Ok (grid m n (fun a i => i * m + a)).
Proof.
  unfold MatMul.sort_index, reshape, arange. simpl.
  rewrite length_seq, (Nat.mul_comm n m), Nat.eqb_refl. simpl.
  f_equal. unfold ravel, T_.
  change (ncols (NDArray (n, m) (seq 0 (m * n)))) with m.
  change (nrows (NDArray (n, m) (seq 0 (m * n)))) with n.
  change (nrows (tabulate m n
                   (fun i j => item 0 (NDArray (n, m) (seq 0 (m * n))) j i)))
    with m.
  change (ncols (tabulate m n
                   (fun i j => item 0 (NDArray (n, m) (seq 0 (m * n))) j i)))
    with n.
  apply grid_ext. intros a i Ha Hi. rewrite item_tabulate by assumption.
  unfold item. change (ncols (NDArray (n, m) (seq 0 (m * n)))) with m.
  simpl data. rewrite seq_nth by nia. reflexivity.
Qed.

Lemma at_zeros (r c i j : nat) : i < r -> j < c -> at_ (zeros r c) i j = 0%R.
Proof. intros. unfold zeros. rewrite at_tabulate by assumption. reflexivity. Qed.

Lemma at_transpose (M : matrix) (i j : nat) :
  i < ncols M -> j < nrows M -> at_ (transpose M) i j = at_ M j i.
Proof.
  intros. unfold transpose, T_. rewrite at_tabulate by assumption.
  reflexivity.
Qed.

Section MatMulJacobi.
Variables (st : state) (self a b : node_ref) (A B C : matrix) (m k n : nat).
Hypothesis HP : has_parents st self [a; b].
Hypothesis HA : has_value st a A.
Hypothesis HB : has_value st b B.
Hypothesis HC : has_value st self C.
Hypothesis SA : shape A = (m, k).
Hypothesis SB : shape B = (k, n).
Hypothesis SC : shape C = (m, n).

(** The Jacobian with respect to the left operand: [m] diagonal blocks, each
    the transpose of [B]. *)
Lemma MatMul_get_jacobi_left :
  0 < k -> 0 < n ->
  exists J,
    MatMul.get_jacobi self a st = Ok J
    /\ shape J = (m * n, m * k)
    /\ forall p q, p < m * n -> q < m * k ->
         at_ J p q = if p / n =? q / k then at_ B (q mod k) (p mod n)
                     else 0%R.
Proof.
  intros Hk Hn.
  assert (RF : nrows (transpose B) = n) by apply (ncols_shape _ _ _ SB).
  assert (CF : ncols (transpose B) = k) by apply (nrows_shape _ _ _ SB).
  destruct (fill_diagonal_spec (zeros (m * n) (m * k)) (transpose B))
    as (J & EJ & SJ & _ & HJ).
  { rewrite RF; exact Hn. }
  { rewrite CF; exact Hk. }
  { rewrite RF, CF. change (nrows (zeros (m * n) (m * k))) with (m * n).
    change (ncols (zeros (m * n) (m * k))) with (m * k). nia. }
  exists J. split; [|split].
  - unfold MatMul.get_jacobi.
    rewrite (Node_dimension_shape _ _ _ _ _ HC SC).
    rewrite (Node_dimension_shape _ _ _ _ _ HA SA).
    cbn [rbind np_zeros as_index fst snd].
    rewrite (parent_at_has_parents _ _ _ 0 a HP eq_refl). cbn [rbind].
    rewrite Nat.eqb_refl.
    rewrite (parent_at_has_parents _ _ _ 1 b HP eq_refl). cbn [rbind].
    rewrite (value_of_has_value _ _ _ _ HB). cbn [rbind]. exact EJ.
  - exact SJ.
  - intros p q Hp Hq.
    change (nrows (zeros (m * n) (m * k))) with (m * n) in HJ.
    change (ncols (zeros (m * n) (m * k))) with (m * k) in HJ.
    rewrite HJ by assumption. rewrite RF, CF.
    rewrite Nat.div_mul by lia.
    assert (Hpn : p / n < m)
      by (apply Nat.Div0.div_lt_upper_bound; lia).
    rewrite (proj2 (Nat.ltb_lt _ _) Hpn), andb_true_r.
    destruct (p / n =? q / k); [|apply at_zeros; assumption].
    apply at_transpose.
    + rewrite (ncols_shape _ _ _ SB). apply Nat.mod_upper_bound; lia.
    + rewrite (nrows_shape _ _ _ SB). apply Nat.mod_upper_bound; lia.
Qed.

(** The Jacobian with respect to the right operand, after the two
    re-orderings: entry [(a*n + i, b*n + i')] is [A[a, b]] when [i = i']. *)
Lemma MatMul_get_jacobi_right :
  a <> b -> 0 < m -> 0 < k ->
  exists J,
    MatMul.get_jacobi self b st = Ok J
    /\ shape J = (m * n, k * n)
    /\ forall p q, p < m * n -> q < k * n ->
         at_ J p q = if p mod n =? q mod n then at_ A (p / n) (q / n)
                     else 0%R.
Proof.
  intros Hab Hm Hk.
  assert (RF : nrows A = m) by apply (nrows_shape _ _ _ SA).
  assert (CF : ncols A = k) by apply (ncols_shape _ _ _ SA).
  destruct (fill_diagonal_spec (zeros (m * n) (k * n)) A)
    as (J0 & EJ & SJ & _ & HJ).
  { rewrite RF; exact Hm. }
  { rewrite CF; exact Hk. }
  { rewrite RF, CF. change (nrows (zeros (m * n) (k * n))) with (m * n).
    change (ncols (zeros (m * n) (k * n))) with (k * n). nia. }
  change (nrows (zeros (m * n) (k * n))) with (m * n) in HJ.
  change (ncols (zeros (m * n) (k * n))) with (k * n) in HJ.
  rewrite RF, CF in HJ.
  assert (R0 : nrows J0 = m * n) by (apply (nrows_shape _ _ _ SJ)).
  assert (C0 : ncols J0 = k * n) by (apply (ncols_shape _ _ _ SJ)).
  set (rs := grid m n (fun x i => i * m + x)).
  set (cs := grid k n (fun x i => i * k + x)).
  assert (Frs : forallb (fun x => x <? nrows J0) rs = true).
  { apply forallb_forall. intros x Hx.
    apply in_grid in Hx as (i & j & Hi & Hj & ->).
    apply Nat.ltb_lt. rewrite R0. nia. }
  set (J1 := tabulate (length rs) (ncols J0)
               (fun p q => at_ J0 (nth p rs 0) q)).
  assert (Fcs : forallb (fun x => x <? ncols J1) cs = true).
  { apply forallb_forall. intros x Hx.
    apply in_grid in Hx as (i & j & Hi & Hj & ->).
    apply Nat.ltb_lt. change (ncols J1) with (ncols J0). rewrite C0. nia. }
  assert (Lrs : length rs = m * n) by apply length_grid.
  assert (Lcs : length cs = k * n) by apply length_grid.
  exists (tabulate (nrows J1) (length cs) (fun p q => at_ J1 p (nth q cs 0))).
  split; [|split].
  - unfold MatMul.get_jacobi.
    rewrite (Node_dimension_shape _ _ _ _ _ HC SC).
    rewrite (Node_dimension_shape _ _ _ _ _ HB SB).
    cbn [rbind np_zeros as_index fst snd].
    rewrite (parent_at_has_parents _ _ _ 0 a HP eq_refl). cbn [rbind].
    destruct (Nat.eqb_spec b a) as [E|_]; [congruence|].
    rewrite (value_of_has_value _ _ _ _ HA). cbn [rbind].
    rewrite EJ. cbn [rbind].
    rewrite (Node_shape_has_value _ _ _ HC), SC. cbn [rbind].
    rewrite sort_index_spec. cbn [rbind].
    rewrite (Node_shape_has_value _ _ _ HB), SB. cbn [rbind].
    rewrite sort_index_spec. cbn [rbind].
    unfold take_rows. fold rs. rewrite Frs. cbn [rbind].
    unfold take_cols. fold J1. fold cs. rewrite Fcs. reflexivity.
  - change (nrows J1) with (length rs). rewrite Lrs, Lcs. reflexivity.
  - intros p q Hp Hq. change (nrows J1) with (length rs).
    rewrite at_tabulate by lia. unfold J1.
    rewrite at_tabulate
      by (try lia; rewrite C0; unfold cs; rewrite nth_grid_flat by lia;
          pose proof (Nat.mod_upper_bound q n);
          pose proof (Nat.Div0.div_lt_upper_bound q n k); nia).
    unfold rs, cs. rewrite !nth_grid_flat by lia.
    assert (Hn : 0 < n) by nia.
    assert (Hpn : p / n < m)
      by (apply Nat.Div0.div_lt_upper_bound; lia).
    assert (Hqn : q / n < k)
      by (apply Nat.Div0.div_lt_upper_bound; lia).
    assert (Hpm : p mod n < n) by (apply Nat.mod_upper_bound; lia).
    assert (Hqm : q mod n < n) by (apply Nat.mod_upper_bound; lia).
    rewrite HJ by nia.
    rewrite !div_mul_add, !mod_mul_add by assumption.
    replace (m * n / m) with n
      by (rewrite (Nat.mul_comm m n); symmetry; apply Nat.div_mul; lia).
    rewrite (proj2 (Nat.ltb_lt _ _) Hpm), andb_true_r.
    destruct (p mod n =? q mod n); [reflexivity|].
    apply at_zeros; nia.
Qed.

End MatMulJacobi.

Lemma nth_A1 (M : matrix) (r c i j : nat) :
  shape M = (r, c) -> i < r -> j < c -> nth (i * c + j) (A1 M) 0%R = at_ M i j.
Proof.
  intros HS Hi Hj. unfold A1, ravel.
  rewrite (nrows_shape _ _ _ HS), (ncols_shape _ _ _ HS).
  apply nth_grid; assumption.
Qed.

Lemma A1_dot (X Y : matrix) (r k c : nat) :
  shape X = (r, k) -> shape Y = (k, c) ->
  A1 (dot X Y)
  = grid r c (fun i j => rsum k (fun l => (at_ X i l * at_ Y l j)%R)).
Proof.
  intros SX SY. unfold A1, dot. rewrite ravel_tabulate.
  rewrite (nrows_shape _ _ _ SX), (ncols_shape _ _ _ SX),
    (ncols_shape _ _ _ SY). reflexivity.
Qed.

(** A block-diagonal Jacobian acts on a row-major perturbation of the left
    operand as right multiplication by [B]. *)
Lemma action_left (J B dA : matrix) (m k n : nat) :
  shape J = (m * n, m * k) -> shape B = (k, n) -> shape dA = (m, k) ->
  (forall p q, p < m * n -> q < m * k ->
     at_ J p q = if p / n =? q / k then at_ B (q mod k) (p mod n) else 0%R) ->
  matvec J (A1 dA) = A1 (dot dA B).
Proof.
  intros SJ SB SD HJ. rewrite (A1_dot _ _ _ _ _ SD SB).
  apply nth_ext with (d := 0%R) (d' := 0%R).
  - rewrite length_matvec, length_grid. apply (nrows_shape _ _ _ SJ).
  - intros p Hp. rewrite length_matvec, (nrows_shape _ _ _ SJ) in Hp.
    rewrite nth_matvec by (rewrite (nrows_shape _ _ _ SJ); exact Hp).
    rewrite (ncols_shape _ _ _ SJ), nth_grid_flat by exact Hp.
    assert (Hn : 0 < n) by nia.
    assert (Hpn : p / n < m) by (apply Nat.Div0.div_lt_upper_bound; lia).
    rewrite rsum_runs.
    rewrite (rsum_ext m _
               (fun i => if p / n =? i
                         then rsum k (fun l => (at_ dA i l
                                                * at_ B l (p mod n))%R)
                         else 0%R)).
    + apply rsum_delta. exact Hpn.
    + intros i Hi. destruct (p / n =? i) eqn:E.
      * apply rsum_ext. intros l Hl. rewrite HJ by nia.
        rewrite div_mul_add, mod_mul_add, E by exact Hl.
        rewrite (nth_A1 _ _ _ _ _ SD Hi Hl). ring.
      * rewrite (rsum_ext k _ (fun _ => 0%R)); [apply rsum_zero|].
        intros l Hl. rewrite HJ by nia.
        rewrite div_mul_add, E by exact Hl. ring.
Qed.

(** The re-ordered Jacobian acts on a row-major perturbation of the right
    operand as left multiplication by [A]. *)
Lemma action_right (J A dB : matrix) (m k n : nat) :
  shape J = (m * n, k * n) -> shape A = (m, k) -> shape dB = (k, n) ->
  (forall p q, p < m * n -> q < k * n ->
     at_ J p q = if p mod n =? q mod n then at_ A (p / n) (q / n) else 0%R) ->
  matvec J (A1 dB) = A1 (dot A dB).
Proof.
  intros SJ SA SD HJ. rewrite (A1_dot _ _ _ _ _ SA SD).
  apply nth_ext with (d := 0%R) (d' := 0%R).
  - rewrite length_matvec, length_grid. apply (nrows_shape _ _ _ SJ).
  - intros p Hp. rewrite length_matvec, (nrows_shape _ _ _ SJ) in Hp.
    rewrite nth_matvec by (rewrite (nrows_shape _ _ _ SJ); exact Hp).
    rewrite (ncols_shape _ _ _ SJ), nth_grid_flat by exact Hp.
    assert (Hn : 0 < n) by nia.
    assert (Hpm : p mod n < n) by (apply Nat.mod_upper_bound; lia).
    rewrite rsum_runs. apply rsum_ext. intros x Hx.
    rewrite (rsum_ext n _
               (fun i => if p mod n =? i
                         then (at_ A (p / n) x * at_ dB x i)%R else 0%R)).
    + apply rsum_delta. exact Hpm.
    + intros i Hi. rewrite HJ by nia.
      rewrite div_mul_add, mod_mul_add by exact Hi.
      rewrite (nth_A1 _ _ _ _ _ SD Hx Hi).
      destruct (p mod n =? i); ring.
Qed.

Lemma shape_matmul (A B C : matrix) (m k n : nat) :
  shape A = (m, k) -> shape B = (k, n) -> matmul A B = Ok C ->
  shape C = (m, n).
Proof.
  intros SA SB. unfold matmul.
  rewrite (ncols_shape _ _ _ SA), (nrows_shape _ _ _ SB), Nat.eqb_refl.
  intros E. injection E as <-. unfold dot.
  rewrite (nrows_shape _ _ _ SA), (ncols_shape _ _ _ SB). reflexivity.
Qed.

(** C1 (as amended).  For a MatMul node with value C = A.B over two distinct
    parents holding A of shape (m, k) and B of shape (k, n), with m, k, n at
    least 1: [get_jacobi] with respect to the left parent has shape
    (mn, mk), with respect to the right parent (mn, kn), and each is the
    Jacobian under row-major flattening ([A1], numpy's [ravel]): applied to
    the flattened perturbation it gives the flattened [dA.B], respectively
    [A.dB]. *)
Theorem MatMul_get_jacobi_is_the_row_major_jacobian
        (st : state) (self a b : node_ref) (A B C : matrix) (m k n : nat) :
  has_parents st self [a; b] -> a <> b ->
  has_value st a A -> has_value st b B -> has_value st self C ->
  shape A = (m, k) -> shape B = (k, n) -> matmul A B = Ok C ->
  0 < m -> 0 < k -> 0 < n ->
  (exists JA,
      MatMul.get_jacobi self a st = Ok JA
      /\ shape JA = (m * n, m * k)
      /\ forall dA, shape dA = (m, k) ->
           matvec JA (A1 dA) = A1 (dot dA B))
  /\ (exists JB,
         MatMul.get_jacobi self b st = Ok JB
         /\ shape JB = (m * n, k * n)
         /\ forall dB, shape dB = (k, n) ->
              matvec JB (A1 dB) = A1 (dot A dB)).
Proof.
  intros HP Hab HA HB HC SA SB EC Hm Hk Hn.
  pose proof (shape_matmul A B C m k n SA SB EC) as SC.
  split.
  - destruct (MatMul_get_jacobi_left st self a b A B C m k n
                HP HA HB HC SA SB SC Hk Hn) as (J & EJ & SJ & HJ).
    exists J. split; [exact EJ|]. split; [exact SJ|].
    intros dA SD. apply (action_left J B dA m k n SJ SB SD HJ).
  - destruct (MatMul_get_jacobi_right st self a b A B C m k n
                HP HA HB HC SA SB SC Hab Hm Hk) as (J & EJ & SJ & HJ).
    exists J. split; [exact EJ|]. split; [exact SJ|].
    intros dB SD. apply (action_right J A dB m k n SJ SA SD HJ).
Qed.

Lemma scenario_product :
  dot scenario_A scenario_B = of_rows 2 [[19; 22]; [43; 50]]%R.
Proof.
  unfold dot, of_rows, tabulate, grid. simpl. unfold at_, item. simpl.
  repeat f_equal; ring.
Qed.

Lemma MatMul_get_jacobi_is_the_row_major_jacobian_witness :
  (exists JA,
      MatMul.get_jacobi 2 0 matmul_example = Ok JA
      /\ shape JA = (2 * 2, 2 * 2)
      /\ forall dA, shape dA = (2, 2) ->
           matvec JA (A1 dA) = A1 (dot dA scenario_B))
  /\ (exists JB,
         MatMul.get_jacobi 2 1 matmul_example = Ok JB
         /\ shape JB = (2 * 2, 2 * 2)
         /\ forall dB, shape dB = (2, 2) ->
              matvec JB (A1 dB) = A1 (dot scenario_A dB)).
Proof.
  apply (MatMul_get_jacobi_is_the_row_major_jacobian
           matmul_example 2 0 1 scenario_A scenario_B
           (dot scenario_A scenario_B) 2 2 2).
  - exists (MkNode [0; 1] (Some 2)). split; reflexivity.
  - discriminate.
  - exists (MkNode [] (Some 0)), 0. repeat split; reflexivity.
  - exists (MkNode [] (Some 1)), 1. repeat split; reflexivity.
  - exists (MkNode [0; 1] (Some 2)), 2. repeat split; reflexivity.
  - reflexivity.
  - reflexivity.
  - reflexivity.
  - lia.
  - lia.
  - lia.
Defined.

(** C1, counterexample.  In the end-to-end scenario the Jacobian with respect
    to B is [[1,0,2,0],[0,1,0,2],[3,0,4,0],[0,3,0,4]]; applied to the
    column-major vec of dB = [[0,1],[0,0]] it gives (2,0,4,0), which is not
    the column-major vec (0,0,1,3) of A.dB. *)
Lemma MatMul_get_jacobi_is_not_the_column_major_jacobian :
  exists JB,
    MatMul.get_jacobi 2 1 matmul_example = Ok JB
    /\ JB = of_rows 4 [[1; 0; 2; 0]; [0; 1; 0; 2];
                       [3; 0; 4; 0]; [0; 3; 0; 4]]%R
    /\ matvec JB (vec_colmajor (of_rows 2 [[0; 1]; [0; 0]]%R))
       <> vec_colmajor (dot scenario_A (of_rows 2 [[0; 1]; [0; 0]]%R)).
Proof.
  exists (of_rows 4 [[1; 0; 2; 0]; [0; 1; 0; 2];
                     [3; 0; 4; 0]; [0; 3; 0; 4]]%R).
  split; [reflexivity|]. split; [reflexivity|].
  intros H.
  apply (f_equal (fun v => nth 0 v 0%R)) in H.
  cbv [matvec vec_colmajor A1 ravel transpose T_ dot tabulate grid of_rows
       scenario_A nrows ncols shape data fst snd map seq concat app nth
       length at_ item rsum Nat.mul Nat.add] in H.
  lra.
Qed.

(** ** Operators that leave their parents' matrices alone *)

Lemma heap_after_alloc_and_rebind (st st' : state) (self : node_ref)
      (V : matrix) :
  (let (l, st1) := alloc st V in set_value st1 self l) = Ok st' ->
  heap st' = heap st ++ [V].
Proof.
  unfold alloc, set_value, get_node. simpl.
  destruct (nth_error (nodes st) self); simpl; [|discriminate].
  intros E. injection E as <-. reflexivity.
Qed.

(** [logistic.compute] clips with [np.where], which builds a new array:
    every matrix object of the old heap is unchanged afterwards. *)
Lemma logistic_compute_keeps_the_heap (self : node_ref) (st st' : state) :
  logistic.compute self st = Ok st' ->
  forall l M, nth_error (heap st) l = Some M ->
              nth_error (heap st') l = Some M.
Proof.
  unfold logistic.compute. intros E l M Hl.
  destruct (parent_at st self 0) as [p0|]; simpl in E; [|discriminate].
  destruct (value_of st p0 TypeError) as [X|]; simpl in E; [|discriminate].
  rewrite (heap_after_alloc_and_rebind _ _ _ _ E).
  apply nth_error_old. exact Hl.
Qed.

Lemma Step_compute_keeps_the_heap (self : node_ref) (st st' : state) :
  Step.compute self st = Ok st' ->
  forall l M, nth_error (heap st) l = Some M ->
              nth_error (heap st') l = Some M.
Proof.
  unfold Step.compute. intros E l M Hl.
  destruct (parent_at st self 0) as [p0|]; simpl in E; [|discriminate].
  destruct (value_of st p0 TypeError) as [X|]; simpl in E; [|discriminate].
  rewrite (heap_after_alloc_and_rebind _ _ _ _ E).
  apply nth_error_old. exact Hl.
Qed.

Lemma MatMul_compute_keeps_the_heap (self : node_ref) (st st' : state) :
  MatMul.compute self st = Ok st' ->
  forall l M, nth_error (heap st) l = Some M ->
              nth_error (heap st') l = Some M.
Proof.
  unfold MatMul.compute. intros E l M Hl.
  destruct (get_node st self) as [nd|]; simpl in E; [|discriminate].
  destruct (negb (length (parents nd) =? 2)); [discriminate|].
  destruct (parent_at st self 0) as [p0|]; simpl in E; [|discriminate].
  destruct (Node_shape st p0) as [s0|]; simpl in E; [|discriminate].
  destruct (parent_at st self 1) as [p1|]; simpl in E; [|discriminate].
  destruct (Node_shape st p1) as [s1|]; simpl in E; [|discriminate].
  destruct (negb (snd s0 =? fst s1)); [discriminate|].
  destruct (value_of st p0 TypeError) as [A|]; simpl in E; [|discriminate].
  destruct (value_of st p1 TypeError) as [B|]; simpl in E; [|discriminate].
  destruct (matmul A B) as [C|]; simpl in E; [|discriminate].
  rewrite (heap_after_alloc_and_rebind _ _ _ _ E).
  apply nth_error_old. exact Hl.
Qed.

(** ** Shapes of the Jacobians that are returned *)

(** For a parent whose value has the shape of the node's own value, the
    Jacobians of [Add] and [logistic] have [dimension(self)] rows and
    [dimension(parent)] columns. *)
Lemma Add_logistic_get_jacobi_shape
      (st : state) (self p : node_ref) (V P : matrix) :
  has_value st self V -> has_value st p P -> shape P = shape V ->
  (exists J, Add.get_jacobi self p st = Ok J
             /\ Node_dimension st self = Ok (nrows J)
             /\ Node_dimension st p = Ok (ncols J))
  /\ (exists J, logistic.get_jacobi self p st = Ok J
                /\ Node_dimension st self = Ok (nrows J)
                /\ Node_dimension st p = Ok (ncols J)).
Proof.
  intros HV HP HS.
  assert (DP : Node_dimension st p = Ok (nrows V * ncols V)).
  { rewrite (Node_dimension_has_value _ _ _ HP).
    unfold nrows, ncols. rewrite HS. reflexivity. }
  split.
  - exists (eye (nrows V * ncols V)).
    split; [apply Add_get_jacobi_eye; exact HV|].
    split; [apply Node_dimension_has_value; exact HV|exact DP].
  - exists (diag (A1 (logistic.derivative V))).
    assert (L : length (A1 (logistic.derivative V)) = nrows V * ncols V).
    { unfold A1. rewrite length_ravel. reflexivity. }
    split.
    + unfold logistic.get_jacobi. rewrite (value_of_has_value _ _ _ _ HV).
      reflexivity.
    + rewrite (nrows_shape _ _ _ (shape_diag _)).
      rewrite (ncols_shape _ _ _ (shape_diag _)). rewrite L.
      split; [apply Node_dimension_has_value; exact HV|exact DP].
Qed.

(** The Jacobians of [MatMul] have [dimension(self)] rows and
    [dimension(parent)] columns. *)
Lemma MatMul_get_jacobi_shape
      (st : state) (self a b : node_ref) (A B C : matrix) (m k n : nat) :
  has_parents st self [a; b] -> a <> b ->
  has_value st a A -> has_value st b B -> has_value st self C ->
  shape A = (m, k) -> shape B = (k, n) -> shape C = (m, n) ->
  0 < m -> 0 < k -> 0 < n ->
  (exists J, MatMul.get_jacobi self a st = Ok J
             /\ Node_dimension st self = Ok (nrows J)
             /\ Node_dimension st a = Ok (ncols J))
  /\ (exists J, MatMul.get_jacobi self b st = Ok J
                /\ Node_dimension st self = Ok (nrows J)
                /\ Node_dimension st b = Ok (ncols J)).
Proof.
  intros HP Hab HA HB HC SA SB SC Hm Hk Hn. split.
  - destruct (MatMul_get_jacobi_left st self a b A B C m k n
                HP HA HB HC SA SB SC Hk Hn) as (J & EJ & SJ & _).
    exists J. split; [exact EJ|].
    rewrite (nrows_shape _ _ _ SJ), (ncols_shape _ _ _ SJ).
    split; [apply (Node_dimension_shape _ _ _ _ _ HC SC)
           |apply (Node_dimension_shape _ _ _ _ _ HA SA)].
  - destruct (MatMul_get_jacobi_right st self a b A B C m k n
                HP HA HB HC SA SB SC Hab Hm Hk) as (J & EJ & SJ & _).
    exists J. split; [exact EJ|].
    rewrite (nrows_shape _ _ _ SJ), (ncols_shape _ _ _ SJ).
    split; [apply (Node_dimension_shape _ _ _ _ _ HC SC)
           |apply (Node_dimension_shape _ _ _ _ _ HB SB)].
Qed.

(** With an inner dimension of 0 the division in [fill_diagonal]'s
    assertion is 0/0: [get_jacobi] raises for either parent. *)
Lemma MatMul_get_jacobi_zero_inner_dimension :
  MatMul.get_jacobi 2 0 zero_inner_example = Raise ZeroDivisionError
  /\ MatMul.get_jacobi 2 1 zero_inner_example = Raise ZeroDivisionError.
Proof. split; reflexivity. Qed.

(** * Further properties of the operators *)

(** ** [fill_diagonal]: the blocks and what lies outside them *)

(** X1.  Filling a zero matrix of shape (n*r, n*c) with a filler of shape
    (r, c) gives the block-diagonal matrix with [n] copies of the filler:
    block (i, j) is the filler when i = j and zero otherwise. *)
Theorem fill_diagonal_of_zeros_is_block_diagonal (F : matrix) (n r c : nat) :
  shape F = (r, c) -> 0 < r -> 0 < c ->
  exists M,
    fill_diagonal (zeros (n * r) (n * c)) F = Ok M
    /\ shape M = (n * r, n * c) /\ wf M
    /\ forall i j x y, i < n -> j < n -> x < r -> y < c ->
         at_ M (i * r + x) (j * c + y)
         = if i =? j then at_ F x y else 0%R.
Proof.
  intros SF Hr Hc.
  pose proof (nrows_shape _ _ _ SF) as RF.
  pose proof (ncols_shape _ _ _ SF) as CF.
  destruct (fill_diagonal_spec (zeros (n * r) (n * c)) F)
    as (M & EM & SM & WM & HM).
  { rewrite RF; exact Hr. }
  { rewrite CF; exact Hc. }
  { rewrite RF, CF. change (nrows (zeros (n * r) (n * c))) with (n * r).
    change (ncols (zeros (n * r) (n * c))) with (n * c). nia. }
  change (nrows (zeros (n * r) (n * c))) with (n * r) in HM.
  change (ncols (zeros (n * r) (n * c))) with (n * c) in HM.
  rewrite RF, CF in HM.
  exists M. split; [exact EM|]. split; [exact SM|].
  split; [apply WM, wf_tabulate|].
  intros i j x y Hi Hj Hx Hy. rewrite HM by nia.
  rewrite !div_mul_add, !mod_mul_add by assumption.
  rewrite Nat.div_mul by lia.
  rewrite (proj2 (Nat.ltb_lt _ _) Hi), andb_true_r.
  destruct (i =? j); [reflexivity|]. apply at_zeros; nia.
Qed.

Lemma fill_diagonal_of_zeros_is_block_diagonal_witness :
  exists M,
    fill_diagonal (zeros (3 * 2) (3 * 2)) scenario_A = Ok M
    /\ shape M = (3 * 2, 3 * 2) /\ wf M
    /\ forall i j x y, i < 3 -> j < 3 -> x < 2 -> y < 2 ->
         at_ M (i * 2 + x) (j * 2 + y)
         = if i =? j then at_ scenario_A x y else 0%R.
Proof.
  apply (fill_diagonal_of_zeros_is_block_diagonal scenario_A 3 2 2).
  - reflexivity.
  - lia.
  - lia.
Defined.

(** X2.  A filler with no rows or no columns makes the assertion divide by
    zero; and whatever the arguments, [fill_diagonal] raises nothing but
    [ZeroDivisionError] and [AssertionError]: the slice assignments of its
    loop never go out of bounds. *)
Theorem fill_diagonal_raises_only_from_its_assertion (T F : matrix) :
  (nrows F = 0 \/ ncols F = 0 -> fill_diagonal T F = Raise ZeroDivisionError)
  /\ (forall e, fill_diagonal T F = Raise e ->
                e = ZeroDivisionError \/ e = AssertionError).
Proof.
  split.
  - intros H0. unfold fill_diagonal.
    destruct (Nat.eqb_spec (nrows F) 0) as [|Hr]; [reflexivity|].
    destruct (Nat.eqb_spec (ncols F) 0) as [|Hc]; [reflexivity|].
    destruct H0; contradiction.
  - intros e He.
    destruct (Nat.eq_dec (nrows F) 0) as [Hr|Hr].
    { left. unfold fill_diagonal in He. rewrite Hr in He. simpl in He.
      congruence. }
    destruct (Nat.eq_dec (ncols F) 0) as [Hc|Hc].
    { left. unfold fill_diagonal in He. rewrite Hc in He.
      rewrite orb_true_r in He. congruence. }
    destruct (Nat.eq_dec (nrows T * ncols F) (ncols T * nrows F)) as [E|E].
    + destruct (fill_diagonal_spec T F) as (M & EM & _); [lia|lia|exact E|].
      congruence.
    + right. unfold fill_diagonal in He.
      destruct (Nat.eqb_spec (nrows F) 0); [contradiction|].
      destruct (Nat.eqb_spec (ncols F) 0); [contradiction|].
      simpl in He.
      destruct (Nat.eqb_spec (nrows T * ncols F) (ncols T * nrows F));
        [contradiction|]. simpl in He. congruence.
Qed.

Lemma fill_diagonal_raises_only_from_its_assertion_witness :
  fill_diagonal (zeros 4 4) (NDArray (0, 2) []) = Raise ZeroDivisionError.
Proof.
  apply (proj1 (fill_diagonal_raises_only_from_its_assertion
                  (zeros 4 4) (NDArray (0, 2) []))).
  left. reflexivity.
Defined.

(** X3.  When the ratios agree, every entry of the target that lies below or
    to the right of the [floor(R/r)] blocks, or in an off-diagonal block,
    is returned as it was, and the result keeps the target's shape and
    well-formedness. *)
Theorem fill_diagonal_keeps_what_lies_outside_the_blocks (T F : matrix) :
  0 < nrows F -> 0 < ncols F ->
  nrows T * ncols F = ncols T * nrows F ->
  exists M,
    fill_diagonal T F = Ok M
    /\ shape M = shape T /\ (wf T -> wf M)
    /\ forall p q, p < nrows T -> q < ncols T ->
         (nrows T / nrows F) * nrows F <= p
         \/ (nrows T / nrows F) * ncols F <= q
         \/ p / nrows F <> q / ncols F ->
         at_ M p q = at_ T p q.
Proof.
  intros Hr Hc E.
  destruct (fill_diagonal_spec T F Hr Hc E) as (M & EM & SM & WM & HM).
  exists M. split; [exact EM|]. split; [exact SM|]. split; [exact WM|].
  intros p q Hp Hq Hout. rewrite HM by assumption.
  destruct (Nat.eqb_spec (p / nrows F) (q / ncols F)) as [Epq|Epq];
    [|reflexivity].
  simpl. destruct (Nat.ltb_spec (p / nrows F) (nrows T / nrows F)) as [L|L];
    [|reflexivity].
  exfalso. destruct Hout as [H1|[H2|H3]].
  - assert (nrows T / nrows F <= p / nrows F)
      by (apply Nat.div_le_lower_bound; lia). lia.
  - assert (nrows T / nrows F <= q / ncols F)
      by (apply Nat.div_le_lower_bound; lia). lia.
  - contradiction.
Qed.

Lemma fill_diagonal_keeps_what_lies_outside_the_blocks_witness :
  exists M,
    fill_diagonal (eye 5) scenario_A = Ok M
    /\ shape M = shape (eye 5) /\ (wf (eye 5) -> wf M)
    /\ forall p q, p < nrows (eye 5) -> q < ncols (eye 5) ->
         (nrows (eye 5) / nrows scenario_A) * nrows scenario_A <= p
         \/ (nrows (eye 5) / nrows scenario_A) * ncols scenario_A <= q
         \/ p / nrows scenario_A <> q / ncols scenario_A ->
         at_ M p q = at_ (eye 5) p q.
Proof.
  apply (fill_diagonal_keeps_what_lies_outside_the_blocks (eye 5) scenario_A).
  - vm_compute; lia.
  - vm_compute; lia.
  - reflexivity.
Defined.

(** ** [MatMul.compute] *)

(** What a state looks like after [self.value] has been bound to a new
    matrix object [V]. *)
Lemma rebound_state (st : state) (self : node_ref) (ps : list node_ref)
      (V : matrix) :
  has_parents st self ps ->
  let st' := MkState (update (nodes st) self
                        (MkNode ps (Some (length (heap st)))))
                     (heap st ++ [V]) in
  (let (l, st1) := alloc st V in set_value st1 self l) = Ok st'
  /\ has_value st' self V
  /\ has_parents st' self ps
  /\ (forall p P, p <> self -> has_value st p P -> has_value st' p P)
  /\ (forall p qs, p <> self -> has_parents st p qs -> has_parents st' p qs).
Proof.
  intros (nd & Hn & Hps). simpl.
  assert (Lself : self < length (nodes st))
    by (apply nth_error_Some; rewrite Hn; discriminate).
  split; [|split; [|split; [|split]]].
  - unfold alloc, set_value, get_node. simpl. rewrite Hn. simpl.
    rewrite Hps. reflexivity.
  - eexists _, _. simpl. rewrite nth_error_update_eq by exact Lself.
    split; [reflexivity|]. split; [reflexivity|]. apply nth_error_last.
  - eexists. simpl. rewrite nth_error_update_eq by exact Lself.
    split; reflexivity.
  - intros p P Hne (np & lp & Hp & Hv & Hl). exists np, lp. simpl.
    rewrite nth_error_update_neq by congruence.
    split; [exact Hp|]. split; [exact Hv|]. apply nth_error_old. exact Hl.
  - intros p qs Hne (np & Hp & Hq). exists np. simpl.
    rewrite nth_error_update_neq by congruence. split; assumption.
Qed.

Lemma MatMul_compute_state (st : state) (self a b : node_ref)
      (A B : matrix) (m k n : nat) :
  has_parents st self [a; b] ->
  has_value st a A -> has_value st b B ->
  shape A = (m, k) -> shape B = (k, n) ->
  MatMul.compute self st
  = Ok (MkState (update (nodes st) self
                   (MkNode [a; b] (Some (length (heap st)))))
                (heap st ++ [dot A B])).
Proof.
  intros HP HA HB SA SB. pose proof HP as (nd & Hn & Hps).
  unfold MatMul.compute, get_node. rewrite Hn. cbn [rbind].
  rewrite Hps. cbn [length Nat.eqb negb].
  rewrite (parent_at_has_parents _ _ _ 0 a HP eq_refl). cbn [rbind].
  rewrite (Node_shape_has_value _ _ _ HA), SA. cbn [rbind].
  rewrite (parent_at_has_parents _ _ _ 1 b HP eq_refl). cbn [rbind].
  rewrite (Node_shape_has_value _ _ _ HB), SB. cbn [rbind fst snd].
  rewrite Nat.eqb_refl. cbn [negb].
  rewrite (value_of_has_value _ _ _ _ HA). cbn [rbind].
  rewrite (value_of_has_value _ _ _ _ HB). cbn [rbind].
  unfold matmul. rewrite (ncols_shape _ _ _ SA), (nrows_shape _ _ _ SB).
  rewrite Nat.eqb_refl. cbn [rbind].
  apply (proj1 (rebound_state st self [a; b] (dot A B) HP)).
Qed.

(** X4.  With exactly two parents holding A of shape (m, k) and B of shape
    (k, n), [MatMul.compute] returns and binds the node to the (m, n)
    matrix whose entry (i, j) is the sum over l of A[i,l] * B[l,j]; the
    values and parents of all other nodes are as before. *)
Theorem MatMul_compute_binds_the_product
        (st : state) (self a b : node_ref) (A B : matrix) (m k n : nat) :
  has_parents st self [a; b] ->
  has_value st a A -> has_value st b B ->
  shape A = (m, k) -> shape B = (k, n) ->
  exists st' C,
    MatMul.compute self st = Ok st'
    /\ has_value st' self C /\ has_parents st' self [a; b]
    /\ shape C = (m, n) /\ wf C
    /\ (forall i j, i < m -> j < n ->
          at_ C i j = rsum k (fun l => (at_ A i l * at_ B l j)%R))
    /\ (forall p P, p <> self -> has_value st p P -> has_value st' p P).
Proof.
  intros HP HA HB SA SB.
  destruct (rebound_state st self [a; b] (dot A B) HP)
    as (_ & HV & HP' & Hkeep & _).
  eexists _, (dot A B).
  split; [apply (MatMul_compute_state st self a b A B m k n); assumption|].
  split; [exact HV|]. split; [exact HP'|].
  assert (SC : shape (dot A B) = (m, n)).
  { unfold dot. rewrite (nrows_shape _ _ _ SA), (ncols_shape _ _ _ SB).
    reflexivity. }
  split; [exact SC|]. split; [apply wf_tabulate|]. split; [|exact Hkeep].
  intros i j Hi Hj. unfold dot.
  rewrite (nrows_shape _ _ _ SA), (ncols_shape _ _ _ SB),
    (ncols_shape _ _ _ SA).
  rewrite at_tabulate by assumption. reflexivity.
Qed.

Lemma MatMul_compute_binds_the_product_witness :
  exists st' C,
    MatMul.compute 2 matmul_example = Ok st'
    /\ has_value st' 2 C /\ has_parents st' 2 [0; 1]
    /\ shape C = (2, 2) /\ wf C
    /\ (forall i j, i < 2 -> j < 2 ->
          at_ C i j
          = rsum 2 (fun l => (at_ scenario_A i l * at_ scenario_B l j)%R))
    /\ (forall p P, p <> 2 -> has_value matmul_example p P ->
                    has_value st' p P).
Proof.
  apply (MatMul_compute_binds_the_product
           matmul_example 2 0 1 scenario_A scenario_B 2 2 2).
  - exists (MkNode [0; 1] (Some 2)). split; reflexivity.
  - exists (MkNode [] (Some 0)), 0. repeat split; reflexivity.
  - exists (MkNode [] (Some 1)), 1. repeat split; reflexivity.
  - reflexivity.
  - reflexivity.
Defined.

(** X5.  [MatMul.compute] raises [AssertionError] when the node does not
    have exactly two parents, and when the left operand's column count
    differs from the right operand's row count. *)
Theorem MatMul_compute_asserts_arity_and_inner_dimension
        (st : state) (self : node_ref) :
  (forall ps, has_parents st self ps -> length ps <> 2 ->
              MatMul.compute self st = Raise AssertionError)
  /\ (forall a b A B,
         has_parents st self [a; b] ->
         has_value st a A -> has_value st b B ->
         ncols A <> nrows B ->
         MatMul.compute self st = Raise AssertionError).
Proof.
  split.
  - intros ps (nd & Hn & Hps) Hlen.
    unfold MatMul.compute, get_node. rewrite Hn. cbn [rbind]. rewrite Hps.
    destruct (Nat.eqb_spec (length ps) 2); [contradiction|reflexivity].
  - intros a b A B HP HA HB Hne. pose proof HP as (nd & Hn & Hps).
    unfold MatMul.compute, get_node. rewrite Hn. cbn [rbind].
    rewrite Hps. cbn [length Nat.eqb negb].
    rewrite (parent_at_has_parents _ _ _ 0 a HP eq_refl). cbn [rbind].
    rewrite (Node_shape_has_value _ _ _ HA). cbn [rbind].
    rewrite (parent_at_has_parents _ _ _ 1 b HP eq_refl). cbn [rbind].
    rewrite (Node_shape_has_value _ _ _ HB). cbn [rbind].
    change (snd (shape A)) with (ncols A).
    change (fst (shape B)) with (nrows B).
    destruct (Nat.eqb_spec (ncols A) (nrows B)); [contradiction|reflexivity].
Qed.

Lemma MatMul_compute_asserts_arity_and_inner_dimension_witness :
  MatMul.compute 2 stranger_example = Raise AssertionError
  /\ MatMul.compute 2 add_example = Raise AssertionError.
Proof.
  split.
  - apply (proj1 (MatMul_compute_asserts_arity_and_inner_dimension
                    stranger_example 2) [0]).
    + exists (MkNode [0] (Some 2)). split; reflexivity.
    + simpl. lia.
  - apply (proj2 (MatMul_compute_asserts_arity_and_inner_dimension
                    add_example 2)
                 0 1 (of_rows 2 [[1; 2]]%R) (of_rows 2 [[10; 20]]%R)).
    + exists (MkNode [0; 1] None). split; reflexivity.
    + exists (MkNode [] (Some 0)), 0. repeat split; reflexivity.
    + exists (MkNode [] (Some 1)), 1. repeat split; reflexivity.
    + vm_compute. lia.
Defined.

(** ** [MatMul]: [compute] followed by [get_jacobi] *)

(** X6.  After [MatMul.compute] on two distinct parents (neither of them
    the node itself) holding A of shape (m, k) and B of shape (k, n), with
    m, k, n at least 1, both calls of [get_jacobi] return, with
    [dimension(self)] rows and [dimension(parent)] columns, and act on a
    row-major perturbation as the product does. *)
Theorem MatMul_compute_then_get_jacobi
        (st : state) (self a b : node_ref) (A B : matrix) (m k n : nat) :
  has_parents st self [a; b] -> a <> b -> a <> self -> b <> self ->
  has_value st a A -> has_value st b B ->
  shape A = (m, k) -> shape B = (k, n) ->
  0 < m -> 0 < k -> 0 < n ->
  exists st' JA JB,
    MatMul.compute self st = Ok st'
    /\ MatMul.get_jacobi self a st' = Ok JA
    /\ MatMul.get_jacobi self b st' = Ok JB
    /\ Node_dimension st' self = Ok (nrows JA)
    /\ Node_dimension st' a = Ok (ncols JA)
    /\ Node_dimension st' self = Ok (nrows JB)
    /\ Node_dimension st' b = Ok (ncols JB)
    /\ (forall dA, shape dA = (m, k) -> matvec JA (A1 dA) = A1 (dot dA B))
    /\ (forall dB, shape dB = (k, n) -> matvec JB (A1 dB) = A1 (dot A dB)).
Proof.
  intros HP Hab Has Hbs HA HB SA SB Hm Hk Hn.
  destruct (rebound_state st self [a; b] (dot A B) HP)
    as (_ & HC' & HP' & Hkeep & _).
  pose proof (MatMul_compute_state st self a b A B m k n HP HA HB SA SB)
    as Ecomp.
  set (st' := MkState (update (nodes st) self
                         (MkNode [a; b] (Some (length (heap st)))))
                      (heap st ++ [dot A B])) in *.
  pose proof (Hkeep a A Has HA) as HA'.
  pose proof (Hkeep b B Hbs HB) as HB'.
  assert (SC : shape (dot A B) = (m, n)).
  { unfold dot. rewrite (nrows_shape _ _ _ SA), (ncols_shape _ _ _ SB).
    reflexivity. }
  destruct (MatMul_get_jacobi_left st' self a b A B (dot A B) m k n
              HP' HA' HB' HC' SA SB SC Hk Hn) as (JA & EA & SJA & HJA).
  destruct (MatMul_get_jacobi_right st' self a b A B (dot A B) m k n
              HP' HA' HB' HC' SA SB SC Hab Hm Hk) as (JB & EB & SJB & HJB).
  exists st', JA, JB.
  split; [exact Ecomp|]. split; [exact EA|]. split; [exact EB|].
  rewrite (nrows_shape _ _ _ SJA), (ncols_shape _ _ _ SJA).
  rewrite (nrows_shape _ _ _ SJB), (ncols_shape _ _ _ SJB).
  split; [apply (Node_dimension_shape _ _ _ _ _ HC' SC)|].
  split; [apply (Node_dimension_shape _ _ _ _ _ HA' SA)|].
  split; [apply (Node_dimension_shape _ _ _ _ _ HC' SC)|].
  split; [apply (Node_dimension_shape _ _ _ _ _ HB' SB)|].
  split.
  - intros dA SD. apply (action_left JA B dA m k n SJA SB SD HJA).
  - intros dB SD. apply (action_right JB A dB m k n SJB SA SD HJB).
Qed.

(** X7.  The entries of the two Jacobians.  With respect to the left
    operand, row (i, j) and column (i', l) hold B[l, j] when i = i' and zero
    otherwise; with respect to the right operand, row (x, i) and column
    (y, i') hold A[x, y] when i = i' and zero otherwise.  Rows and columns
    are numbered row-major: (i, j) of an (m, n) matrix is i*n + j. *)
Theorem MatMul_get_jacobi_entries
        (st : state) (self a b : node_ref) (A B C : matrix) (m k n : nat) :
  has_parents st self [a; b] -> a <> b ->
  has_value st a A -> has_value st b B -> has_value st self C ->
  shape A = (m, k) -> shape B = (k, n) -> shape C = (m, n) ->
  0 < m -> 0 < k -> 0 < n ->
  exists JA JB,
    MatMul.get_jacobi self a st = Ok JA
    /\ MatMul.get_jacobi self b st = Ok JB
    /\ (forall i j i' l, i < m -> j < n -> i' < m -> l < k ->
          at_ JA (i * n + j) (i' * k + l)
          = if i =? i' then at_ B l j else 0%R)
    /\ (forall x i y i', x < m -> i < n -> y < k -> i' < n ->
          at_ JB (x * n + i) (y * n + i')
          = if i =? i' then at_ A x y else 0%R).
Proof.
  intros HP Hab HA HB HC SA SB SC Hm Hk Hn.
  destruct (MatMul_get_jacobi_left st self a b A B C m k n
              HP HA HB HC SA SB SC Hk Hn) as (JA & EA & _ & HJA).
  destruct (MatMul_get_jacobi_right st self a b A B C m k n
              HP HA HB HC SA SB SC Hab Hm Hk) as (JB & EB & _ & HJB).
  exists JA, JB. split; [exact EA|]. split; [exact EB|]. split.
  - intros i j i' l Hi Hj Hi' Hl. rewrite HJA by nia.
    rewrite !div_mul_add, !mod_mul_add by assumption. reflexivity.
  - intros x i y i' Hx Hi Hy Hi'. rewrite HJB by nia.
    rewrite !div_mul_add, !mod_mul_add by assumption. reflexivity.
Qed.

(** X8.  When both operands are one and the same node, [get_jacobi] for
    that node takes the left branch: what is returned is the derivative
    with respect to the left operand alone, whose action on a perturbation
    dA is dA.A. *)
Theorem MatMul_get_jacobi_of_a_square
        (st : state) (self a : node_ref) (A C : matrix) (k : nat) :
  has_parents st self [a; a] ->
  has_value st a A -> has_value st self C ->
  shape A = (k, k) -> shape C = (k, k) -> 0 < k ->
  exists J,
    MatMul.get_jacobi self a st = Ok J
    /\ shape J = (k * k, k * k)
    /\ forall dA, shape dA = (k, k) -> matvec J (A1 dA) = A1 (dot dA A).
Proof.
  intros HP HA HC SA SC Hk.
  destruct (MatMul_get_jacobi_left st self a a A A C k k k
              HP HA HA HC SA SA SC Hk Hk) as (J & EJ & SJ & HJ).
  exists J. split; [exact EJ|]. split; [exact SJ|].
  intros dA SD. apply (action_left J A dA k k k SJ SA SD HJ).
Qed.

(** X9.  [MatMul.get_jacobi] reads nothing of its argument but its identity
    and the shape of its value: for any node other than the left parent
    whose value has the shape of the right parent's value, it returns what
    it returns for the right parent. *)
Theorem MatMul_get_jacobi_depends_on_the_shape_only
        (st : state) (self a b q : node_ref) (B Q : matrix) :
  has_parents st self [a; b] -> a <> b -> q <> a ->
  has_value st b B -> has_value st q Q -> shape Q = shape B ->
  MatMul.get_jacobi self q st = MatMul.get_jacobi self b st.
Proof.
  intros HP Hab Hqa HB HQ HS. unfold MatMul.get_jacobi.
  rewrite (Node_dimension_has_value _ _ _ HB).
  rewrite (Node_dimension_has_value _ _ _ HQ).
  rewrite (Node_shape_has_value _ _ _ HB).
  rewrite (Node_shape_has_value _ _ _ HQ).
  unfold nrows, ncols. rewrite HS.
  rewrite (parent_at_has_parents _ _ _ 0 a HP eq_refl).
  destruct (Node_dimension st self) as [ds|]; [|reflexivity].
  cbn [rbind].
  destruct (Nat.eqb_spec q a); [contradiction|].
  destruct (Nat.eqb_spec b a); [congruence|]. reflexivity.
Qed.

Lemma MatMul_compute_then_get_jacobi_witness :
  exists st' JA JB,
    MatMul.compute 2 matmul_example = Ok st'
    /\ MatMul.get_jacobi 2 0 st' = Ok JA
    /\ MatMul.get_jacobi 2 1 st' = Ok JB
    /\ Node_dimension st' 2 = Ok (nrows JA)
    /\ Node_dimension st' 0 = Ok (ncols JA)
    /\ Node_dimension st' 2 = Ok (nrows JB)
    /\ Node_dimension st' 1 = Ok (ncols JB)
    /\ (forall dA, shape dA = (2, 2) ->
          matvec JA (A1 dA) = A1 (dot dA scenario_B))
    /\ (forall dB, shape dB = (2, 2) ->
          matvec JB (A1 dB) = A1 (dot scenario_A dB)).
Proof.
  apply (MatMul_compute_then_get_jacobi
           matmul_example 2 0 1 scenario_A scenario_B 2 2 2).
  - exists (MkNode [0; 1] (Some 2)). split; reflexivity.
  - discriminate.
  - discriminate.
  - discriminate.
  - exists (MkNode [] (Some 0)), 0. repeat split; reflexivity.
  - exists (MkNode [] (Some 1)), 1. repeat split; reflexivity.
  - reflexivity.
  - reflexivity.
  - lia.
  - lia.
  - lia.
Defined.

Lemma MatMul_get_jacobi_entries_witness :
  exists JA JB,
    MatMul.get_jacobi 2 0 matmul_example = Ok JA
    /\ MatMul.get_jacobi 2 1 matmul_example = Ok JB
    /\ (forall i j i' l, i < 2 -> j < 2 -> i' < 2 -> l < 2 ->
          at_ JA (i * 2 + j) (i' * 2 + l)
          = if i =? i' then at_ scenario_B l j else 0%R)
    /\ (forall x i y i', x < 2 -> i < 2 -> y < 2 -> i' < 2 ->
          at_ JB (x * 2 + i) (y * 2 + i')
          = if i =? i' then at_ scenario_A x y else 0%R).
Proof.
  apply (MatMul_get_jacobi_entries
           matmul_example 2 0 1 scenario_A scenario_B
           (dot scenario_A scenario_B) 2 2 2).
  - exists (MkNode [0; 1] (Some 2)). split; reflexivity.
  - discriminate.
  - exists (MkNode [] (Some 0)), 0. repeat split; reflexivity.
  - exists (MkNode [] (Some 1)), 1. repeat split; reflexivity.
  - exists (MkNode [0; 1] (Some 2)), 2. repeat split; reflexivity.
  - reflexivity.
  - reflexivity.
  - reflexivity.
  - lia.
  - lia.
  - lia.
Defined.

Lemma MatMul_get_jacobi_of_a_square_witness :
  exists J,
    MatMul.get_jacobi 1 0 square_example = Ok J
    /\ shape J = (2 * 2, 2 * 2)
    /\ forall dA, shape dA = (2, 2) ->
         matvec J (A1 dA) = A1 (dot dA scenario_A).
Proof.
  apply (MatMul_get_jacobi_of_a_square
           square_example 1 0 scenario_A (dot scenario_A scenario_A) 2).
  - exists (MkNode [0; 0] (Some 1)). split; reflexivity.
  - exists (MkNode [] (Some 0)), 0. repeat split; reflexivity.
  - exists (MkNode [0; 0] (Some 1)), 1. repeat split; reflexivity.
  - reflexivity.
  - reflexivity.
  - lia.
Defined.

Lemma MatMul_get_jacobi_depends_on_the_shape_only_witness :
  MatMul.get_jacobi 2 3 matmul_stranger_example
  = MatMul.get_jacobi 2 1 matmul_stranger_example.
Proof.
  apply (MatMul_get_jacobi_depends_on_the_shape_only
           matmul_stranger_example 2 0 1 3
           scenario_B (of_rows 2 [[0; 1]; [0; 0]]%R)).
  - exists (MkNode [0; 1] (Some 2)). split; reflexivity.
  - discriminate.
  - discriminate.
  - exists (MkNode [] (Some 1)), 1. repeat split; reflexivity.
  - exists (MkNode [] (Some 3)), 3. repeat split; reflexivity.
  - reflexivity.
Defined.

(** ** [MatMul]: the index re-ordering *)

Lemma nth_sort_grid (m n p : nat) :
  p < m * n ->
  nth p (grid m n (fun x i => i * m + x)) 0 = (p mod n) * m + p / n.
Proof. intros Hp. rewrite nth_grid_flat by exact Hp. reflexivity. Qed.

(** X10.  For a matrix of shape (m, n) the index array
    [np.arange(m*n).reshape((n, m)).T.ravel()] is a permutation of
    0 .. m*n-1; at the row-major position of entry (x, i) it holds the
    column-major position i*m + x of that entry. *)
Theorem sort_index_is_a_permutation (m n : nat) :
  exists rs,
    MatMul.sort_index (m * n) (m, n) = Ok rs
    /\ Permutation rs (arange (m * n))
    /\ forall x i, x < m -> i < n -> nth (x * n + i) rs 0 = i * m + x.
Proof.
  exists (grid m n (fun x i => i * m + x)).
  split; [apply sort_index_spec|]. split.
  - apply NoDup_Permutation.
    + apply (proj2 (NoDup_nth _ 0)). rewrite length_grid.
      intros p q Hp Hq E. rewrite !nth_sort_grid in E by assumption.
      assert (Hn : 0 < n) by nia. assert (Hm : 0 < m) by nia.
      assert (Hpn : p / n < m) by (apply Nat.Div0.div_lt_upper_bound; lia).
      assert (Hqn : q / n < m) by (apply Nat.Div0.div_lt_upper_bound; lia).
      pose proof (f_equal (fun v => v / m) E) as Ed.
      pose proof (f_equal (fun v => v mod m) E) as Em.
      simpl in Ed, Em.
      rewrite !div_mul_add in Ed by assumption.
      rewrite !mod_mul_add in Em by assumption.
      rewrite (Nat.div_mod_eq p n), (Nat.div_mod_eq q n). congruence.
    + apply seq_NoDup.
    + intros v. unfold arange. rewrite in_seq. split.
      * intros Hv. apply in_grid in Hv as (x & i & Hx & Hi & ->). nia.
      * intros [_ Hv]. simpl in Hv.
        assert (Hm : 0 < m) by nia.
        assert (Hvm : v / m < n)
          by (apply Nat.Div0.div_lt_upper_bound; lia).
        assert (Hvr : v mod m < m) by (apply Nat.mod_upper_bound; lia).
        replace v with (nth ((v mod m) * n + v / m)
                            (grid m n (fun x i => i * m + x)) 0).
        { apply nth_In. rewrite length_grid. nia. }
        rewrite nth_grid by assumption.
        rewrite (Nat.div_mod_eq v m) at 3. lia.
  - intros x i Hx Hi. rewrite nth_grid by assumption. reflexivity.
Qed.

Lemma sort_index_is_a_permutation_witness :
  exists rs,
    MatMul.sort_index (2 * 3) (2, 3) = Ok rs
    /\ Permutation rs (arange (2 * 3))
    /\ forall x i, x < 2 -> i < 3 -> nth (x * 3 + i) rs 0 = i * 2 + x.
Proof. apply (sort_index_is_a_permutation 2 3). Defined.

(** X11.  The re-ordering for shape (n, m) undoes the one for shape (m, n):
    looking up the second array at an element of the first gives back the
    position of that element. *)
Theorem sort_index_of_the_transposed_shape_is_the_inverse (m n : nat) :
  exists rs rs',
    MatMul.sort_index (m * n) (m, n) = Ok rs
    /\ MatMul.sort_index (n * m) (n, m) = Ok rs'
    /\ forall p, p < m * n -> nth (nth p rs 0) rs' 0 = p.
Proof.
  exists (grid m n (fun x i => i * m + x)), (grid n m (fun i x => x * n + i)).
  split; [apply sort_index_spec|]. split; [apply sort_index_spec|].
  intros p Hp. rewrite (nth_sort_grid m n p Hp).
  assert (Hn : 0 < n) by nia.
  assert (Hpn : p / n < m) by (apply Nat.Div0.div_lt_upper_bound; lia).
  assert (Hpm : p mod n < n) by (apply Nat.mod_upper_bound; lia).
  rewrite (nth_sort_grid n m) by nia.
  rewrite div_mul_add, mod_mul_add by assumption.
  rewrite (Nat.div_mod_eq p n) at 3. lia.
Qed.

Lemma sort_index_of_the_transposed_shape_is_the_inverse_witness :
  exists rs rs',
    MatMul.sort_index (2 * 3) (2, 3) = Ok rs
    /\ MatMul.sort_index (3 * 2) (3, 2) = Ok rs'
    /\ forall p, p < 2 * 3 -> nth (nth p rs 0) rs' 0 = p.
Proof. apply (sort_index_of_the_transposed_shape_is_the_inverse 2 3). Defined.

(** ** [Step.compute] and [logistic.compute] *)

Lemma nth_map_default {A B} (f : A -> B) (l : list A) (i : nat)
      (da : A) (db : B) :
  i < length l -> nth i (map f l) db = f (nth i l da).
Proof.
  intros Hi. rewrite nth_indep with (d' := f da)
    by (rewrite length_map; exact Hi).
  apply map_nth.
Qed.

(** X12.  [Step.compute] returns whenever the first parent holds a matrix
    X, and binds the node to a new matrix of X's shape whose entry is 1
    where the entry of X is at least 0 and 0 where it is negative; the
    values of all other nodes, the parent included, are as before. *)
Theorem Step_compute_is_the_sign_test
        (st : state) (self p0 : node_ref) (ps : list node_ref) (X : matrix) :
  has_parents st self (p0 :: ps) -> has_value st p0 X ->
  exists st' V,
    Step.compute self st = Ok st'
    /\ has_value st' self V
    /\ shape V = shape X /\ length (data V) = length (data X)
    /\ (forall i, i < length (data X) ->
          (nth i (data V) 0 = 1 /\ 0 <= nth i (data X) 0)%R
          \/ (nth i (data V) 0 = 0 /\ nth i (data X) 0 < 0)%R)
    /\ (forall p P, p <> self -> has_value st p P -> has_value st' p P).
Proof.
  intros HP HX.
  set (V := map_matrix (fun x => if Rge_dec x 0 then 1%R else 0%R) X).
  destruct (rebound_state st self (p0 :: ps) V HP)
    as (E & HV & _ & Hkeep & _).
  eexists _, V. split; [|split; [exact HV|]].
  - unfold Step.compute.
    rewrite (parent_at_has_parents _ _ _ 0 p0 HP eq_refl). cbn [rbind].
    rewrite (value_of_has_value _ _ _ _ HX). cbn [rbind]. exact E.
  - split; [reflexivity|]. split; [apply length_map|]. split; [|exact Hkeep].
    intros i Hi. unfold V, map_matrix. cbn [data].
    rewrite (nth_map_default _ _ _ 0%R 0%R Hi).
    destruct (Rge_dec (nth i (data X) 0%R) 0%R); [left|right]; split;
      try reflexivity; lra.
Qed.

Lemma Step_compute_is_the_sign_test_witness :
  exists st' V,
    Step.compute 1 step_example = Ok st'
    /\ has_value st' 1 V
    /\ shape V = shape (of_rows 2 [[1; -2]]%R)
    /\ length (data V) = length (data (of_rows 2 [[1; -2]]%R))
    /\ (forall i, i < length (data (of_rows 2 [[1; -2]]%R)) ->
          (nth i (data V) 0 = 1
           /\ 0 <= nth i (data (of_rows 2 [[1; -2]]%R)) 0)%R
          \/ (nth i (data V) 0 = 0
              /\ nth i (data (of_rows 2 [[1; -2]]%R)) 0 < 0)%R)
    /\ (forall p P, p <> 1 -> has_value step_example p P ->
                    has_value st' p P).
Proof.
  apply (Step_compute_is_the_sign_test step_example 1 0 []).
  - exists (MkNode [0] None). split; reflexivity.
  - exists (MkNode [] (Some 0)), 0. repeat split; reflexivity.
Defined.

Lemma sigma_exponent_le (x y : R) :
  (x <= y)%R ->
  ((if Rgt_dec (- y) 100 then 100 else - y)
   <= (if Rgt_dec (- x) 100 then 100 else - x))%R.
Proof.
  intros Hxy. destruct (Rgt_dec (- y) 100), (Rgt_dec (- x) 100); lra.
Qed.

Lemma exp_le (x y : R) : (x <= y)%R -> (exp x <= exp y)%R.
Proof.
  intros [Hlt|Heq]; [left; apply exp_increasing; exact Hlt|].
  rewrite Heq. right; reflexivity.
Qed.

Lemma sigma_range (x : R) : (0 < logistic.sigma x < 1)%R.
Proof.
  unfold logistic.sigma.
  set (e := exp (if Rgt_dec (- x) 100 then 100 else - x)).
  assert (He : (0 < e)%R) by apply exp_pos.
  split.
  - apply Rdiv_lt_0_compat; lra.
  - apply (Rmult_lt_reg_r (1 + e)); [lra|].
    unfold Rdiv. rewrite Rmult_assoc, Rinv_l by lra. lra.
Qed.

(** X13.  The scalar map of [logistic.compute] takes values above 0 and
    not above 1 (the bound 1 is reached in binary64, where 1 + e^-x rounds
    to 1 for large x), is monotone non-decreasing, is the logistic function
    1 / (1 + exp(-x)) from -100 upwards, and is constant below -100, where
    the exponent is clipped. *)
Theorem logistic_sigma_is_monotone_and_saturates (x y : R) :
  (0 < logistic.sigma x <= 1)%R
  /\ ((x <= y)%R -> (logistic.sigma x <= logistic.sigma y)%R)
  /\ ((-100 <= x)%R -> logistic.sigma x = (1 / (1 + exp (- x)))%R)
  /\ ((x <= -100)%R -> logistic.sigma x = (1 / (1 + exp 100))%R).
Proof.
  split; [pose proof (sigma_range x); lra|]. split; [|split].
  - intros Hxy. unfold logistic.sigma.
    pose proof (exp_le _ _ (sigma_exponent_le x y Hxy)) as He.
    set (ey := exp (if Rgt_dec (- y) 100 then 100 else - y)) in *.
    set (ex := exp (if Rgt_dec (- x) 100 then 100 else - x)) in *.
    assert (Hy : (0 < ey)%R) by apply exp_pos.
    unfold Rdiv. rewrite !Rmult_1_l.
    apply Rinv_le_contravar; lra.
  - intros Hx. unfold logistic.sigma.
    destruct (Rgt_dec (- x) 100); [lra|reflexivity].
  - intros Hx. unfold logistic.sigma.
    destruct (Rgt_dec (- x) 100) as [|Hn]; [reflexivity|].
    replace (- x)%R with 100%R by lra. reflexivity.
Qed.

Lemma logistic_sigma_is_monotone_and_saturates_witness :
  (logistic.sigma (-200) <= logistic.sigma 3)%R
  /\ logistic.sigma (-200) = (1 / (1 + exp 100))%R
  /\ logistic.sigma 3 = (1 / (1 + exp (- 3)))%R.
Proof.
  split; [|split].
  - apply (proj1 (proj2 (logistic_sigma_is_monotone_and_saturates (-200) 3))).
    lra.
  - apply (proj2 (proj2 (proj2
             (logistic_sigma_is_monotone_and_saturates (-200) 3)))).
    lra.
  - apply (proj1 (proj2 (proj2
             (logistic_sigma_is_monotone_and_saturates 3 3)))).
    lra.
Defined.

(** X14.  [logistic.compute] returns whenever the first parent holds a
    matrix X, and binds the node to a new matrix of X's shape, entry by
    entry the image of X under the scalar map; every entry is above 0 and
    not above 1, and the values of all other nodes are as before. *)
Theorem logistic_compute_stays_inside_the_unit_interval
        (st : state) (self p0 : node_ref) (ps : list node_ref) (X : matrix) :
  has_parents st self (p0 :: ps) -> has_value st p0 X ->
  exists st' V,
    logistic.compute self st = Ok st'
    /\ has_value st' self V
    /\ shape V = shape X
    /\ data V = map logistic.sigma (data X)
    /\ Forall (fun v => (0 < v <= 1)%R) (data V)
    /\ (forall p P, p <> self -> has_value st p P -> has_value st' p P).
Proof.
  intros HP HX.
  destruct (rebound_state st self (p0 :: ps)
              (map_matrix logistic.sigma X) HP) as (E & HV & _ & Hkeep & _).
  eexists _, (map_matrix logistic.sigma X). split; [|split; [exact HV|]].
  - unfold logistic.compute.
    rewrite (parent_at_has_parents _ _ _ 0 p0 HP eq_refl). cbn [rbind].
    rewrite (value_of_has_value _ _ _ _ HX). cbn [rbind]. exact E.
  - split; [reflexivity|]. split; [reflexivity|]. split; [|exact Hkeep].
    unfold map_matrix. cbn [data]. apply Forall_forall. intros v Hv.
    apply in_map_iff in Hv as (x & <- & _).
    pose proof (sigma_range x). lra.
Qed.

Lemma logistic_compute_stays_inside_the_unit_interval_witness :
  exists st' V,
    logistic.compute 1 logistic_example = Ok st'
    /\ has_value st' 1 V
    /\ shape V = shape (of_rows 2 [[0; -1]]%R)
    /\ data V = map logistic.sigma (data (of_rows 2 [[0; -1]]%R))
    /\ Forall (fun v => (0 < v <= 1)%R) (data V)
    /\ (forall p P, p <> 1 -> has_value logistic_example p P ->
                    has_value st' p P).
Proof.
  apply (logistic_compute_stays_inside_the_unit_interval
           logistic_example 1 0 []).
  - exists (MkNode [0] (Some 1)). split; reflexivity.
  - exists (MkNode [] (Some 0)), 0. repeat split; reflexivity.
Defined.

Lemma logistic_get_jacobi_value
      (st : state) (self parent : node_ref) (V : matrix) :
  has_value st self V ->
  logistic.get_jacobi self parent st = Ok (diag (A1 (logistic.derivative V))).
Proof.
  intros HV. unfold logistic.get_jacobi.
  rewrite (value_of_has_value _ _ _ _ HV). reflexivity.
Qed.

Lemma nth_A1_derivative (V : matrix) (i : nat) :
  wf V -> i < nrows V * ncols V ->
  nth i (A1 (logistic.derivative V)) 0%R
  = (nth i (data V) 0 * (1 - nth i (data V) 0))%R.
Proof.
  intros WV Hi. unfold A1, logistic.derivative. rewrite ravel_tabulate.
  rewrite nth_grid_flat by exact Hi. unfold at_, item.
  rewrite (Nat.mul_comm (i / ncols V)), <- Nat.div_mod_eq. reflexivity.
Qed.

(** X15.  [logistic.compute] followed by [logistic.get_jacobi]: for a
    well-formed parent value X (the parent being another node), the
    Jacobian is returned, square of size [dimension(self)] =
    [dimension(parent)], zero off the diagonal, and its i-th diagonal entry
    is s * (1 - s) for s the image of the i-th entry of X; every diagonal
    entry lies between 0 and 1/4, both bounds included (0 is reached in
    binary64 when s is rounded to 1). *)
Theorem logistic_compute_then_get_jacobi
        (st : state) (self p0 : node_ref) (ps : list node_ref) (X : matrix) :
  has_parents st self (p0 :: ps) -> has_value st p0 X -> wf X ->
  p0 <> self ->
  exists st' J,
    logistic.compute self st = Ok st'
    /\ logistic.get_jacobi self p0 st' = Ok J
    /\ Node_dimension st' self = Ok (nrows J)
    /\ Node_dimension st' p0 = Ok (ncols J)
    /\ forall i j, i < nrows J -> j < ncols J ->
         (i <> j -> at_ J i j = 0%R)
         /\ at_ J i i
            = (logistic.sigma (nth i (data X) 0)
               * (1 - logistic.sigma (nth i (data X) 0)))%R
         /\ (0 <= at_ J i i <= 1 / 4)%R.
Proof.
  intros HP HX WX Hne.
  set (V := map_matrix logistic.sigma X).
  destruct (rebound_state st self (p0 :: ps) V HP)
    as (E & HV & _ & Hkeep & _).
  pose proof (Hkeep p0 X Hne HX) as HX'.
  assert (WV : wf V).
  { unfold wf, V, map_matrix. cbn [data]. rewrite length_map. exact WX. }
  assert (L : length (A1 (logistic.derivative V)) = nrows X * ncols X).
  { unfold A1. rewrite length_ravel. reflexivity. }
  set (J := diag (A1 (logistic.derivative V))).
  assert (RJ : nrows J = nrows X * ncols X)
    by (unfold J; rewrite (nrows_shape _ _ _ (shape_diag _)); exact L).
  assert (CJ : ncols J = nrows X * ncols X)
    by (unfold J; rewrite (ncols_shape _ _ _ (shape_diag _)); exact L).
  eexists _, J. split; [|split; [|split; [|split]]].
  - unfold logistic.compute.
    rewrite (parent_at_has_parents _ _ _ 0 p0 HP eq_refl). cbn [rbind].
    rewrite (value_of_has_value _ _ _ _ HX). cbn [rbind]. exact E.
  - apply logistic_get_jacobi_value. exact HV.
  - rewrite RJ. apply (Node_dimension_has_value _ _ _ HV).
  - rewrite CJ. apply (Node_dimension_has_value _ _ _ HX').
  - intros i j Hi Hj. rewrite RJ in Hi. rewrite CJ in Hj.
    assert (Ei : at_ J i i
                 = (logistic.sigma (nth i (data X) 0)
                    * (1 - logistic.sigma (nth i (data X) 0)))%R).
    { unfold J. rewrite at_diag by (rewrite L; exact Hi).
      rewrite Nat.eqb_refl. rewrite (nth_A1_derivative V i WV Hi).
      unfold V, map_matrix. cbn [data].
      rewrite (nth_map_default _ _ _ 0%R 0%R) by (rewrite WX; exact Hi).
      reflexivity. }
    split; [|split; [exact Ei|]].
    + intros Hij. unfold J. rewrite at_diag by (rewrite L; assumption).
      destruct (Nat.eqb_spec i j); [contradiction|reflexivity].
    + rewrite Ei. pose proof (sigma_range (nth i (data X) 0%R)) as [S0 S1].
      set (s := logistic.sigma (nth i (data X) 0%R)) in *. split.
      * apply Rlt_le. apply Rmult_lt_0_compat; lra.
      * replace (s * (1 - s))%R
          with (1 / 4 - (s - 1 / 2) * (s - 1 / 2))%R by field.
        pose proof (Rle_0_sqr (s - 1 / 2)) as Hs. unfold Rsqr in Hs. lra.
Qed.

Lemma logistic_compute_then_get_jacobi_witness :
  exists st' J,
    logistic.compute 1 logistic_example = Ok st'
    /\ logistic.get_jacobi 1 0 st' = Ok J
    /\ Node_dimension st' 1 = Ok (nrows J)
    /\ Node_dimension st' 0 = Ok (ncols J)
    /\ forall i j, i < nrows J -> j < ncols J ->
         (i <> j -> at_ J i j = 0%R)
         /\ at_ J i i
            = (logistic.sigma (nth i (data (of_rows 2 [[0; -1]]%R)) 0)
               * (1 - logistic.sigma
                        (nth i (data (of_rows 2 [[0; -1]]%R)) 0)))%R
         /\ (0 <= at_ J i i <= 1 / 4)%R.
Proof.
  apply (logistic_compute_then_get_jacobi logistic_example 1 0 []).
  - exists (MkNode [0] (Some 1)). split; reflexivity.
  - exists (MkNode [] (Some 0)), 0. repeat split; reflexivity.
  - reflexivity.
  - discriminate.
Defined.

(** ** [SoftMax.compute]: what happens to the parent, and recomputation *)

Lemma clip_idempotent (x : R) : SoftMax.clip (SoftMax.clip x) = SoftMax.clip x.
Proof.
  unfold SoftMax.clip. destruct (Rgt_dec x 100) as [H|H].
  - destruct (Rgt_dec 100 100); [lra|reflexivity].
  - destruct (Rgt_dec x 100); [contradiction|reflexivity].
Qed.

Lemma softmax_of_clipped (M : matrix) :
  softmax_of (map_matrix SoftMax.clip M) = softmax_of M.
Proof.
  assert (E : map_matrix SoftMax.clip (map_matrix SoftMax.clip M)
              = map_matrix SoftMax.clip M).
  { unfold map_matrix. cbn [shape data]. f_equal. rewrite map_map.
    apply map_ext. intros x. apply clip_idempotent. }
  unfold softmax_of. rewrite E. reflexivity.
Qed.

Lemma SoftMax_compute_keeps_parents (st st' : state) (self : node_ref)
      (ps : list node_ref) :
  SoftMax.compute self st = Ok st' ->
  has_parents st self ps -> has_parents st' self ps.
Proof.
  intros E (nd & Hn & Hps).
  assert (Lself : self < length (nodes st))
    by (apply nth_error_Some; rewrite Hn; discriminate).
  unfold SoftMax.compute in E.
  destruct (parent_at st self 0) as [p0|]; cbn [rbind] in E; [|discriminate].
  destruct (value_ref st p0 TypeError) as [a|]; cbn [rbind] in E;
    [|discriminate].
  destruct (SoftMax.softmax a st) as [[V st1]|] eqn:Es; cbn [rbind] in E;
    [|discriminate].
  assert (N1 : nodes st1 = nodes st).
  { unfold SoftMax.softmax in Es.
    destruct (read st a) as [M0|]; cbn [rbind] in Es; [|discriminate].
    destruct (read (write st a (map_matrix SoftMax.clip M0)) a);
      cbn [rbind] in Es; [|discriminate].
    injection Es as _ <-. reflexivity. }
  unfold alloc, set_value, get_node in E. cbn [fst snd nodes heap] in E.
  rewrite N1, Hn in E. cbn [rbind] in E. injection E as <-.
  exists (MkNode (parents nd) (Some (length (heap st1)))). cbn [nodes].
  rewrite nth_error_update_eq by exact Lself. split; [reflexivity|exact Hps].
Qed.

(** X16.  Computing a SoftMax node a second time gives the value of the
    first computation: the first call has clipped the parent's matrix in
    place, the second clips nothing more and normalises the same
    exponentials. *)
Theorem SoftMax_compute_twice_gives_the_same_value
        (st : state) (self p0 : node_ref) (ps : list node_ref) (M : matrix) :
  has_parents st self (p0 :: ps) -> has_value st p0 M -> self <> p0 ->
  exists st1 st2 V M',
    SoftMax.compute self st = Ok st1
    /\ SoftMax.compute self st1 = Ok st2
    /\ has_value st1 self V /\ has_value st2 self V
    /\ has_value st1 p0 M' /\ has_value st2 p0 M'.
Proof.
  intros HP HV Hne.
  destruct (SoftMax_compute_spec st self p0 ps M HP HV)
    as (st1 & E1 & HS1 & Hp1).
  pose proof (Hp1 Hne) as HV1.
  pose proof (SoftMax_compute_keeps_parents st st1 self _ E1 HP) as HP1.
  destruct (SoftMax_compute_spec st1 self p0 ps _ HP1 HV1)
    as (st2 & E2 & HS2 & Hp2).
  pose proof (Hp2 Hne) as HV2.
  rewrite softmax_of_clipped in HS2.
  assert (Ec : map_matrix SoftMax.clip (map_matrix SoftMax.clip M)
               = map_matrix SoftMax.clip M).
  { unfold map_matrix. cbn [shape data]. f_equal. rewrite map_map.
    apply map_ext. intros x. apply clip_idempotent. }
  rewrite Ec in HV2.
  exists st1, st2, (softmax_of M), (map_matrix SoftMax.clip M).
  repeat split; assumption.
Qed.

Lemma SoftMax_compute_twice_gives_the_same_value_witness :
  exists st1 st2 V M',
    SoftMax.compute 1 softmax_example = Ok st1
    /\ SoftMax.compute 1 st1 = Ok st2
    /\ has_value st1 1 V /\ has_value st2 1 V
    /\ has_value st1 0 M' /\ has_value st2 0 M'.
Proof.
  apply (SoftMax_compute_twice_gives_the_same_value
           softmax_example 1 0 [] (of_rows 1 [[200%R]])).
  - exists (MkNode [0] None). split; reflexivity.
  - exists (MkNode [] (Some 0)), 0. repeat split; reflexivity.
  - discriminate.
Defined.

(** X17.  After [SoftMax.compute] the parent holds its old entries capped
    at 100: a matrix of the same shape with no entry above 100.  The
    parent's value is what it was exactly when no entry of it exceeded
    100. *)
Theorem SoftMax_compute_caps_the_parent_at_100
        (st : state) (self p0 : node_ref) (ps : list node_ref) (M : matrix) :
  has_parents st self (p0 :: ps) -> has_value st p0 M -> self <> p0 ->
  exists st' M',
    SoftMax.compute self st = Ok st'
    /\ has_value st' p0 M'
    /\ shape M' = shape M
    /\ data M' = map (fun x => Rmin x 100) (data M)
    /\ Forall (fun x => (x <= 100)%R) (data M')
    /\ (M' = M <-> Forall (fun x => (x <= 100)%R) (data M)).
Proof.
  intros HP HV Hne.
  destruct (SoftMax_compute_spec st self p0 ps M HP HV)
    as (st' & E & _ & Hp).
  exists st', (map_matrix SoftMax.clip M).
  split; [exact E|]. split; [exact (Hp Hne)|]. split; [reflexivity|].
  assert (D : data (map_matrix SoftMax.clip M)
              = map (fun x => Rmin x 100) (data M)).
  { unfold map_matrix. cbn [data]. apply map_ext. apply clip_is_min. }
  split; [exact D|]. split.
  - rewrite D. apply Forall_forall. intros y Hy.
    apply in_map_iff in Hy as (x & <- & _). apply Rmin_r.
  - split.
    + intros EM. apply (f_equal data) in EM. rewrite D in EM.
      apply Forall_forall. intros x Hx.
      destruct (In_nth _ _ 0%R Hx) as (i & Hi & Hnth).
      pose proof (f_equal (fun l => nth i l 0%R) EM) as Ei. simpl in Ei.
      rewrite (nth_map_default _ _ _ 0%R 0%R Hi), Hnth in Ei.
      rewrite <- Ei. apply Rmin_r.
    + intros HF. destruct M as [sh xs]. unfold map_matrix. cbn [shape data].
      f_equal. cbn [data] in HF. rewrite <- (map_id xs) at 2.
      apply map_ext_in. intros x Hx.
      pose proof (proj1 (Forall_forall _ _) HF x Hx) as Hle.
      unfold SoftMax.clip. destruct (Rgt_dec x 100); [lra|reflexivity].
Qed.

Lemma SoftMax_compute_caps_the_parent_at_100_witness :
  exists st' M',
    SoftMax.compute 1 softmax_example = Ok st'
    /\ has_value st' 0 M'
    /\ shape M' = shape (of_rows 1 [[200%R]])
    /\ data M' = map (fun x => Rmin x 100) (data (of_rows 1 [[200%R]]))
    /\ Forall (fun x => (x <= 100)%R) (data M')
    /\ (M' = of_rows 1 [[200%R]]
        <-> Forall (fun x => (x <= 100)%R) (data (of_rows 1 [[200%R]]))).
Proof.
  apply (SoftMax_compute_caps_the_parent_at_100 softmax_example 1 0 []).
  - exists (MkNode [0] None). split; reflexivity.
  - exists (MkNode [] (Some 0)), 0. repeat split; reflexivity.
  - discriminate.
Defined.

(** ** [Add.compute]: the accumulation in general *)

Section AddAccumulate.
Variables (N : list Node) (H : list matrix) (self : node_ref).
Variable ps0 : list node_ref.
Hypothesis Hself : nth_error N self = Some (MkNode ps0 (Some (length H))).

(** One [self.value += parent.value] when the node's value is the newest
    object of the heap. *)
Lemma Add_accumulate_newest (p : node_ref) (P acc : matrix) :
  holds_in N H p P ->
  Add.accumulate self (MkState N (H ++ [acc])) p
  = (M' <- iadd acc P ;; Ok (MkState N (H ++ [M']))).
Proof.
  intros (np & lp & Hp & Hv & Hl).
  unfold Add.accumulate, value_of, value_ref, get_node, read, write.
  cbn [nodes heap]. rewrite Hself. cbn [rbind value].
  rewrite nth_error_last. cbn [rbind]. rewrite Hp. cbn [rbind].
  rewrite Hv. cbn [rbind]. rewrite (nth_error_old _ _ _ _ Hl). cbn [rbind].
  destruct (iadd acc P) as [M'|e]; cbn [rbind]; [|reflexivity].
  rewrite update_last. reflexivity.
Qed.

(** Whatever the parents are, the loop writes to the newest object only. *)
Lemma Add_loop_writes_the_newest_only (qs : list node_ref) :
  forall (acc : matrix) (st' : state),
    for_each qs (Add.accumulate self) (MkState N (H ++ [acc])) = Ok st' ->
    exists acc', st' = MkState N (H ++ [acc']).
Proof.
  induction qs as [|p qs IH]; intros acc st' E.
  - cbn [for_each] in E. injection E as <-. exists acc. reflexivity.
  - cbn [for_each] in E.
    destruct (Add.accumulate self (MkState N (H ++ [acc])) p) as [s1|] eqn:E1;
      cbn [rbind] in E; [|discriminate].
    assert (exists acc1, s1 = MkState N (H ++ [acc1])) as (acc1 & ->).
    { unfold Add.accumulate, value_of, value_ref, get_node, read, write in E1.
      cbn [nodes heap] in E1. rewrite Hself in E1. cbn [rbind value] in E1.
      rewrite nth_error_last in E1. cbn [rbind] in E1.
      destruct (nth_error N p) as [np|]; cbn [rbind] in E1; [|discriminate].
      destruct (value np) as [lp|]; cbn [rbind] in E1; [|discriminate].
      destruct (nth_error (H ++ [acc]) lp) as [P|]; cbn [rbind] in E1;
        [|discriminate].
      destruct (iadd acc P) as [M'|]; cbn [rbind] in E1; [|discriminate].
      rewrite update_last in E1. injection E1 as <-. exists M'. reflexivity. }
    apply (IH acc1 st' E).
Qed.

End AddAccumulate.

(** X18.  Whenever [Add.compute] returns, every matrix object that existed
    before the call is unchanged: the sum is accumulated in a new object,
    and that is the only one the loop writes to, whatever the parents and
    their shapes are. *)
Theorem Add_compute_keeps_the_heap (self : node_ref) (st st' : state) :
  Add.compute self st = Ok st' ->
  forall l M, nth_error (heap st) l = Some M ->
              nth_error (heap st') l = Some M.
Proof.
  unfold Add.compute. intros E l M Hl.
  destruct (parent_at st self 0) as [p0|]; cbn [rbind] in E; [|discriminate].
  destruct (Node_shape st p0) as [sh|]; cbn [rbind] in E; [|discriminate].
  cbn [np_zeros as_index fst snd rbind alloc] in E.
  unfold set_value, get_node in E. cbn [nodes heap] in E.
  destruct (nth_error (nodes st) self) as [nd|] eqn:Hn; cbn [rbind] in E;
    [|discriminate].
  assert (Lself : self < length (nodes st))
    by (apply nth_error_Some; rewrite Hn; discriminate).
  cbn [nodes] in E. rewrite nth_error_update_eq in E by exact Lself.
  cbn [rbind parents] in E.
  destruct (Add_loop_writes_the_newest_only
              _ (heap st) self (parents nd)
              (nth_error_update_eq _ _ _ Lself) _ _ _ E) as (acc' & ->).
  cbn [heap]. apply nth_error_old. exact Hl.
Qed.

Lemma Add_compute_keeps_the_heap_witness :
  exists st',
    Add.compute 2 add_example = Ok st'
    /\ nth_error (heap st') 1 = Some (of_rows 2 [[10; 20]]%R).
Proof.
  eexists. split; [reflexivity|].
  apply (Add_compute_keeps_the_heap 2 add_example _ eq_refl 1). reflexivity.
Defined.

Lemma holds_in_after_rebinding (st : state) (self p : node_ref) (x : Node)
      (P : matrix) :
  has_value st p P -> p <> self ->
  holds_in (update (nodes st) self x) (heap st) p P.
Proof.
  intros (np & lp & Hp & Hv & Hl) Hne. exists np, lp.
  rewrite nth_error_update_neq by congruence. auto.
Qed.

(** X19.  [Add.compute] broadcasts.  With two parents (other than the node
    itself) holding M0 of shape (r, c) and M1 of shape (r', c'): when each
    axis of M1 has the length of M0's axis or length 1, the call returns
    and the value has M0's shape, with M1's single row or column repeated;
    otherwise the in-place addition raises [ValueError]. *)
Theorem Add_compute_broadcasts_the_second_parent
        (st : state) (self p0 p1 : node_ref) (M0 M1 : matrix)
        (r c r' c' : nat) :
  has_parents st self [p0; p1] -> p0 <> self -> p1 <> self ->
  has_value st p0 M0 -> has_value st p1 M1 ->
  shape M0 = (r, c) -> shape M1 = (r', c') ->
  ((r' = r \/ r' = 1) /\ (c' = c \/ c' = 1) ->
   exists st' V,
     Add.compute self st = Ok st'
     /\ has_value st' self V /\ shape V = (r, c)
     /\ forall i j, i < r -> j < c ->
          at_ V i j
          = (at_ M0 i j
             + at_ M1 (if r' =? 1 then 0 else i)
                      (if c' =? 1 then 0 else j))%R)
  /\ (~ ((r' = r \/ r' = 1) /\ (c' = c \/ c' = 1)) ->
      Add.compute self st = Raise ValueError).
Proof.
  intros HP H0s H1s HV0 HV1 S0 S1.
  pose proof HP as (nd & Hn & Hps).
  assert (Lself : self < length (nodes st))
    by (apply nth_error_Some; rewrite Hn; discriminate).
  set (N := update (nodes st) self
              (MkNode [p0; p1] (Some (length (heap st))))).
  assert (Hself : nth_error N self
                  = Some (MkNode [p0; p1] (Some (length (heap st)))))
    by (apply nth_error_update_eq; exact Lself).
  pose proof (holds_in_after_rebinding st self p0
                (MkNode [p0; p1] (Some (length (heap st)))) M0 HV0 H0s) as K0.
  pose proof (holds_in_after_rebinding st self p1
                (MkNode [p0; p1] (Some (length (heap st)))) M1 HV1 H1s) as K1.
  fold N in K0, K1.
  set (acc1 := tabulate r c
                 (fun i j => (at_ (zeros r c) i j
                              + at_ M0 (bidx r i) (bidx c j))%R)).
  assert (I0 : iadd (zeros r c) M0 = Ok acc1).
  { unfold iadd. rewrite (nrows_shape _ _ _ S0), (ncols_shape _ _ _ S0).
    change (nrows (zeros r c)) with r. change (ncols (zeros r c)) with c.
    unfold broadcastable. rewrite !Nat.eqb_refl. reflexivity. }
  assert (Start :
            Add.compute self st
            = (M' <- iadd acc1 M1 ;;
               Ok (MkState N (heap st ++ [M'])))).
  { unfold Add.compute.
    rewrite (parent_at_has_parents _ _ _ 0 p0 HP eq_refl). cbn [rbind].
    rewrite (Node_shape_has_value _ _ _ HV0), S0.
    cbn [rbind np_zeros as_index fst snd alloc].
    unfold set_value, get_node. cbn [nodes heap]. rewrite Hn. cbn [rbind].
    rewrite Hps. cbn [nodes].
    rewrite nth_error_update_eq by exact Lself.
    cbn [rbind parents for_each].
    change (update (nodes st) self
              (MkNode [p0; p1] (Some (length (heap st))))) with N.
    rewrite (Add_accumulate_newest N (heap st) self [p0; p1] Hself
               p0 M0 (zeros r c) K0).
    rewrite I0. cbn [rbind].
    rewrite (Add_accumulate_newest N (heap st) self [p0; p1] Hself
               p1 M1 acc1 K1).
    destruct (iadd acc1 M1); reflexivity. }
  assert (Bc : forall len target,
             broadcastable len target = true <-> len = target \/ len = 1).
  { intros len target. unfold broadcastable. rewrite orb_true_iff.
    rewrite !Nat.eqb_eq. reflexivity. }
  split.
  - intros [Hr Hc]. rewrite Start. unfold iadd.
    rewrite (nrows_shape _ _ _ S1), (ncols_shape _ _ _ S1).
    change (nrows acc1) with r. change (ncols acc1) with c.
    rewrite (proj2 (Bc r' r) Hr), (proj2 (Bc c' c) Hc). cbn [andb rbind].
    set (V := tabulate r c
                (fun i j => (at_ acc1 i j
                             + at_ M1 (bidx r' i) (bidx c' j))%R)).
    exists (MkState N (heap st ++ [V])), V.
    split; [reflexivity|]. split; [|split; [reflexivity|]].
    + eexists _, _. cbn [nodes heap]. rewrite Hself.
      split; [reflexivity|]. split; [reflexivity|]. apply nth_error_last.
    + intros i j Hi Hj. unfold V. rewrite at_tabulate by assumption.
      unfold acc1. rewrite at_tabulate by assumption.
      rewrite at_zeros by assumption.
      rewrite !bidx_in_range by assumption. unfold bidx. ring.
  - intros Hnot. rewrite Start. unfold iadd.
    rewrite (nrows_shape _ _ _ S1), (ncols_shape _ _ _ S1).
    change (nrows acc1) with r. change (ncols acc1) with c.
    destruct (broadcastable r' r && broadcastable c' c) eqn:Eb;
      [|reflexivity].
    exfalso. apply Hnot. apply andb_true_iff in Eb as [Er Ec].
    split; apply Bc; assumption.
Qed.

Lemma Add_compute_broadcasts_the_second_parent_witness :
  (exists st' V,
      Add.compute 2 broadcast_example = Ok st'
      /\ has_value st' 2 V /\ shape V = (2, 2)
      /\ forall i j, i < 2 -> j < 2 ->
           at_ V i j
           = (at_ scenario_A i j
              + at_ (of_rows 2 [[10; 20]]%R)
                    (if 1 =? 1 then 0 else i) (if 2 =? 1 then 0 else j))%R)
  /\ Add.compute 3 broadcast_example = Raise ValueError.
Proof.
  split.
  - apply (proj1 (Add_compute_broadcasts_the_second_parent
                    broadcast_example 2 0 1
                    scenario_A (of_rows 2 [[10; 20]]%R) 2 2 1 2
                    ltac:(exists (MkNode [0; 1] None); split; reflexivity)
                    ltac:(discriminate) ltac:(discriminate)
                    ltac:(exists (MkNode [] (Some 0)), 0;
                          repeat split; reflexivity)
                    ltac:(exists (MkNode [] (Some 1)), 1;
                          repeat split; reflexivity)
                    eq_refl eq_refl)).
    split; [right|left]; reflexivity.
  - apply (proj2 (Add_compute_broadcasts_the_second_parent
                    broadcast_example 3 1 0
                    (of_rows 2 [[10; 20]]%R) scenario_A 1 2 2 2
                    ltac:(exists (MkNode [1; 0] None); split; reflexivity)
                    ltac:(discriminate) ltac:(discriminate)
                    ltac:(exists (MkNode [] (Some 1)), 1;
                          repeat split; reflexivity)
                    ltac:(exists (MkNode [] (Some 0)), 0;
                          repeat split; reflexivity)
                    eq_refl eq_refl)).
    intros [[E|E] _]; discriminate E.
Defined.

(** ** Operators on a node without parents *)

(** X20.  On a node whose parent list is empty, the [compute] of [Add],
    [SoftMax], [Step] and [logistic] raises [IndexError] at
    [self.parents[0]], and that of [MatMul] fails its assertion; the state
    is not touched. *)
Theorem compute_without_parents_raises (st : state) (self : node_ref) :
  has_parents st self [] ->
  Add.compute self st = Raise IndexError
  /\ SoftMax.compute self st = Raise IndexError
  /\ Step.compute self st = Raise IndexError
  /\ logistic.compute self st = Raise IndexError
  /\ MatMul.compute self st = Raise AssertionError.
Proof.
  intros (nd & Hn & Hps).
  assert (E : parent_at st self 0 = Raise IndexError).
  { unfold parent_at, get_node. rewrite Hn. cbn [rbind]. rewrite Hps.
    reflexivity. }
  unfold Add.compute, SoftMax.compute, Step.compute, logistic.compute.
  rewrite E. cbn [rbind]. repeat (split; [reflexivity|]).
  unfold MatMul.compute, get_node. rewrite Hn. cbn [rbind]. rewrite Hps.
  reflexivity.
Qed.

Lemma compute_without_parents_raises_witness :
  Add.compute 0 add_example = Raise IndexError
  /\ SoftMax.compute 0 add_example = Raise IndexError
  /\ Step.compute 0 add_example = Raise IndexError
  /\ logistic.compute 0 add_example = Raise IndexError
  /\ MatMul.compute 0 add_example = Raise AssertionError.
Proof.
  apply (compute_without_parents_raises add_example 0).
  exists (MkNode [] (Some 0)). split; reflexivity.
Defined.
